(** * core-js-101, 06-objects-tasks.js: Rectangle, fromJSON and the css selector builder

    A shallow embedding of [src/06-objects-tasks.js].  Objects that the
    JavaScript code mutates in place ([SimpleSelector] instances) are
    modelled by explicit state passing in a small state-and-exception monad:
    a method receives the current fields of [this], may write some of them,
    and completes either normally or by throwing; the fields survive a throw,
    exactly as they do in JavaScript. *)

From Stdlib Require Import String Ascii List Bool Arith NArith ZArith Lia.
From Stdlib Require Import PrimFloat SpecFloat FloatOps.
From Stdlib Require Import FloatAxioms.
Import ListNotations.
Local Open Scope list_scope.
Local Open Scope string_scope.

(** ** JavaScript errors

    The selector code throws plain [new Error(message)]; the language itself
    throws [TypeError] and [SyntaxError]. *)

Inductive JSError : Type :=
| Error (message : string)
| TypeError
| SyntaxError.

Inductive completion (A : Type) : Type :=
| Normal (a : A)
| Throw (e : JSError).
Arguments Normal {A} a.
Arguments Throw {A} e.


(** ** Rectangle

    JavaScript numbers are IEEE 754 binary64 values, the primitive [float]
    of Rocq; [*] is the binary64 multiplication. *)

Record Rectangle_object : Type := { width : float; height : float }.

(** [new Rectangle(width, height)] *)
Definition Rectangle (width height : float) : Rectangle_object :=
  {| width := width; height := height |}.

(** [Rectangle.prototype.getArea] *)
Definition getArea (this : Rectangle_object) : float :=
  PrimFloat.mul (width this) (height this).

(** ** The values JSON.parse builds

    A parsed string is its sequence of UTF-16 code units.  Arrays and objects
    carry their [[Prototype]]: [Array.prototype] or [Object.prototype] when
    fresh from the parser, any other object (known by reference) once
    [Object.setPrototypeOf] has been applied. *)

Inductive prototype : Type :=
| Object_prototype
| Array_prototype
| Reference (name : string).

#[warnings="-register-all"]
Inductive JSValue : Type :=
| JSNull
| JSBoolean (b : bool)
| JSNumber (n : float)
| JSString (s : list N)
| JSArray (proto : prototype) (elements : list JSValue)
| JSObject (proto : prototype) (properties : list (list N * JSValue)).

(** The code units of a text; one character of a Rocq string stands for one
    code unit (0 to 255). *)
Definition units (text : string) : list N :=
  map N_of_ascii (list_ascii_of_string text).

(** The binary64 value nearest to [m * 10 ^ e10], ties to even, with the
    given sign: what a JSON number denotes. *)
Definition nearest_float (negative : bool) (m : N) (e10 : Z) : float :=
  match m with
  | N0 => SF2Prim (S754_zero negative)
  | Npos p =>
      match e10 with
      | Zneg k =>
          let '(q, e, l) :=
            SFdiv_core_binary prec emax (Zpos p) 0 (Z.pow_pos 10 k) 0 in
          SF2Prim (binary_round_aux prec emax negative q e l)
      | _ =>
          match (Zpos p * 10 ^ e10)%Z with
          | Zpos n => SF2Prim (binary_round prec emax negative n 0)
          | _ => SF2Prim (S754_zero negative)
          end
      end
  end.

(** ** JSON.parse

    [JSON.parse] is a built-in of the language, not code of this file.  It is
    modelled by a parser for the JSON grammar (value, object, array, string,
    number, the three literals, whitespace), which is what the built-in
    accepts; anything else is a SyntaxError. *)

Module JSON.
Local Open Scope N_scope.

(** What a sub-parser answers: a value and the text left, a syntax error, or
    that the recursion bound was reached. *)
Inductive outcome (A : Type) : Type :=
| Parsed (a : A) (rest : list N)
| Invalid
| OutOfFuel.
Arguments Parsed {A} a rest.
Arguments Invalid {A}.
Arguments OutOfFuel {A}.

(** JSON whitespace: space, tab, line feed, carriage return. *)
Definition is_ws (c : N) : bool :=
  (c =? 32) || (c =? 9) || (c =? 10) || (c =? 13).

Fixpoint skip_ws (t : list N) : list N :=
  match t with
  | c :: t' => if is_ws c then skip_ws t' else t
  | [] => []
  end.

(** [expect word t]: [t] without the prefix [word]. *)
Fixpoint expect (word t : list N) : option (list N) :=
  match word, t with
  | [], _ => Some t
  | w :: word', c :: t' => if c =? w then expect word' t' else None
  | _ :: _, [] => None
  end.

Definition digit (c : N) : option N :=
  if (48 <=? c) && (c <=? 57) then Some (c - 48) else None.

Definition hex (c : N) : option N :=
  if (48 <=? c) && (c <=? 57) then Some (c - 48)
  else if (65 <=? c) && (c <=? 70) then Some (c - 55)
  else if (97 <=? c) && (c <=? 102) then Some (c - 87)
  else None.

(** A run of decimal digits, accumulated onto [acc]; [count] digits read. *)
Fixpoint digits (t : list N) (acc count : N) : N * N * list N :=
  match t with
  | c :: t' =>
      match digit c with
      | Some d => digits t' (acc * 10 + d) (count + 1)
      | None => (acc, count, t)
      end
  | [] => (acc, count, [])
  end.

(** int: [0], or a digit from 1 to 9 followed by digits. *)
Definition int_part (t : list N) : option (N * list N) :=
  match t with
  | c :: t' =>
      if c =? 48 then Some (0, t')
      else match digit c with
           | Some d => let '(m, _, r) := digits t' d 1 in Some (m, r)
           | None => None
           end
  | [] => None
  end.

(** frac: nothing, or [.] and at least one digit; the digits extend the
    mantissa. *)
Definition frac_part (m : N) (t : list N) : option (N * N * list N) :=
  match t with
  | c :: t' =>
      if c =? 46 then
        let '(m', k, r) := digits t' m 0 in
        if k =? 0 then None else Some (m', k, r)
      else Some (m, 0, t)
  | [] => Some (m, 0, t)
  end.

(** An optional minus sign. *)
Definition minus_sign (t : list N) : bool * list N :=
  match t with
  | c :: t' => if c =? 45 then (true, t') else (false, t)
  | [] => (false, t)
  end.

(** An optional plus or minus sign. *)
Definition exp_sign (t : list N) : bool * list N :=
  match t with
  | c :: t' =>
      if c =? 45 then (true, t')
      else if c =? 43 then (false, t') else (false, t)
  | [] => (false, t)
  end.

(** exp: nothing, or [e] or [E], an optional sign and at least one digit. *)
Definition exp_part (t : list N) : option (Z * list N) :=
  match t with
  | c :: t' =>
      if (c =? 101) || (c =? 69) then
        let '(negative, t'') := exp_sign t' in
        let '(e, k, r) := digits t'' 0 0 in
        if k =? 0 then None
        else Some (if negative then Z.opp (Z.of_N e) else Z.of_N e, r)
      else Some (0%Z, t)
  | [] => Some (0%Z, t)
  end.

(** number: minus, int, frac, exp. *)
Definition number (t : list N) : outcome float :=
  let '(negative, t1) := minus_sign t in
  match int_part t1 with
  | None => Invalid
  | Some (m, t2) =>
      match frac_part m t2 with
      | None => Invalid
      | Some (m', k, t3) =>
          match exp_part t3 with
          | None => Invalid
          | Some (e, t4) =>
              Parsed (nearest_float negative m' (e - Z.of_N k)) t4
          end
      end
  end.

(** The characters of a string after its opening quote, up to the closing
    one; control characters are refused, escapes are decoded. *)
Fixpoint string_chars (t : list N) (acc : list N) : outcome (list N) :=
  match t with
  | [] => Invalid
  | c :: t' =>
      if c =? 34 then Parsed (rev acc) t'
      else if c =? 92 then
        match t' with
        | [] => Invalid
        | e :: t'' =>
            if e =? 34 then string_chars t'' (34 :: acc)
            else if e =? 92 then string_chars t'' (92 :: acc)
            else if e =? 47 then string_chars t'' (47 :: acc)
            else if e =? 98 then string_chars t'' (8 :: acc)
            else if e =? 102 then string_chars t'' (12 :: acc)
            else if e =? 110 then string_chars t'' (10 :: acc)
            else if e =? 114 then string_chars t'' (13 :: acc)
            else if e =? 116 then string_chars t'' (9 :: acc)
            else if e =? 117 then
              match t'' with
              | h1 :: h2 :: h3 :: h4 :: u =>
                  match hex h1, hex h2, hex h3, hex h4 with
                  | Some a, Some b, Some c, Some d =>
                      string_chars u (((a * 16 + b) * 16 + c) * 16 + d :: acc)
                  | _, _, _, _ => Invalid
                  end
              | _ => Invalid
              end
            else Invalid
        end
      else if c <? 32 then Invalid
      else string_chars t' (c :: acc)
  end.

(** [CreateDataProperty]: a repeated key keeps its place and takes the new
    value.  The list keeps the properties in the order of the text; the order
    in which a JavaScript object enumerates them (integer-like keys first, in
    ascending order) is not modelled, and nothing below depends on it. *)
Fixpoint set_property (key : list N) (v : JSValue)
    (props : list (list N * JSValue)) : list (list N * JSValue) :=
  match props with
  | [] => [(key, v)]
  | (k, old) :: props' =>
      if list_eq_dec N.eq_dec k key then (k, v) :: props'
      else (k, old) :: set_property key v props'
  end.

(** value, elements of an array after the first bracket, members of an
    object after the first brace. *)
Fixpoint value (fuel : nat) (t : list N) : outcome JSValue :=
  match fuel with
  | O => OutOfFuel
  | S fuel' =>
      match skip_ws t with
      | [] => Invalid
      | c :: r =>
          if c =? 110 then
            match expect (units "ull") r with
            | Some r' => Parsed JSNull r'
            | None => Invalid
            end
          else if c =? 116 then
            match expect (units "rue") r with
            | Some r' => Parsed (JSBoolean true) r'
            | None => Invalid
            end
          else if c =? 102 then
            match expect (units "alse") r with
            | Some r' => Parsed (JSBoolean false) r'
            | None => Invalid
            end
          else if c =? 34 then
            match string_chars r [] with
            | Parsed s r' => Parsed (JSString s) r'
            | Invalid => Invalid
            | OutOfFuel => OutOfFuel
            end
          else if c =? 91 then
            match skip_ws r with
            | c' :: r' =>
                if c' =? 93 then Parsed (JSArray Array_prototype []) r'
                else elements fuel' r []
            | [] => Invalid
            end
          else if c =? 123 then
            match skip_ws r with
            | c' :: r' =>
                if c' =? 125 then Parsed (JSObject Object_prototype []) r'
                else members fuel' r []
            | [] => Invalid
            end
          else
            match number (c :: r) with
            | Parsed n r' => Parsed (JSNumber n) r'
            | Invalid => Invalid
            | OutOfFuel => OutOfFuel
            end
      end
  end

with elements (fuel : nat) (t : list N) (acc : list JSValue) : outcome JSValue :=
  match fuel with
  | O => OutOfFuel
  | S fuel' =>
      match value fuel' t with
      | Parsed v r =>
          match skip_ws r with
          | c :: r' =>
              if c =? 44 then elements fuel' r' (v :: acc)
              else if c =? 93 then Parsed (JSArray Array_prototype (rev (v :: acc))) r'
              else Invalid
          | [] => Invalid
          end
      | Invalid => Invalid
      | OutOfFuel => OutOfFuel
      end
  end

with members (fuel : nat) (t : list N) (props : list (list N * JSValue))
    : outcome JSValue :=
  match fuel with
  | O => OutOfFuel
  | S fuel' =>
      match skip_ws t with
      | c :: r =>
          if c =? 34 then
            match string_chars r [] with
            | Parsed key r1 =>
                match skip_ws r1 with
                | c1 :: r2 =>
                    if c1 =? 58 then
                      match value fuel' r2 with
                      | Parsed v r3 =>
                          match skip_ws r3 with
                          | c3 :: r4 =>
                              if c3 =? 44
                              then members fuel' r4 (set_property key v props)
                              else if c3 =? 125
                              then Parsed (JSObject Object_prototype
                                             (set_property key v props)) r4
                              else Invalid
                          | [] => Invalid
                          end
                      | Invalid => Invalid
                      | OutOfFuel => OutOfFuel
                      end
                    else Invalid
                | [] => Invalid
                end
            | Invalid => Invalid
            | OutOfFuel => OutOfFuel
            end
          else Invalid
      | [] => Invalid
      end
  end.

(** Recursion bound that is never reached on a text of this length. *)
Definition enough (t : list N) : nat := 2 * length t + 2.

(** A whole text: one value, whitespace around it, nothing else. *)
Definition parse_units (t : list N) : outcome JSValue :=
  match value (enough t) t with
  | Parsed v r =>
      match skip_ws r with
      | [] => Parsed v []
      | _ :: _ => Invalid
      end
  | Invalid => Invalid
  | OutOfFuel => OutOfFuel
  end.

(** [JSON.parse(text)]: the value, or a SyntaxError. *)
Definition parse (text : string) : completion JSValue :=
  match parse_units (units text) with
  | Parsed v _ => Normal v
  | Invalid => Throw SyntaxError
  | OutOfFuel => Throw SyntaxError
  end.

End JSON.

(** ** fromJSON

    [Object.setPrototypeOf(O, proto)], another built-in, for a [proto] that
    is an object:
    a TypeError on [null], no effect on a primitive, and the [[Prototype]]
    written on an object or an array, which is otherwise left as it is.
    The result is [O] itself. *)
Definition Object_setPrototypeOf (O : JSValue) (proto : prototype) : completion JSValue :=
  match O with
  | JSNull => Throw TypeError
  | JSBoolean _ | JSNumber _ | JSString _ => Normal O
  | JSArray _ elements => Normal (JSArray proto elements)
  | JSObject _ properties => Normal (JSObject proto properties)
  end.

(** [fromJSON(proto, json)] *)
Definition fromJSON (proto : prototype) (json : string) : completion JSValue :=
  match JSON.parse json with
  | Throw e => Throw e
  | Normal res =>
      match Object_setPrototypeOf res proto with
      | Throw e => Throw e
      | Normal res => Normal res
      end
  end.

(** The [[Prototype]] of an object or array; a primitive has none of its own. *)
Definition prototype_of (v : JSValue) : option prototype :=
  match v with
  | JSArray proto _ | JSObject proto _ => Some proto
  | _ => None
  end.

(** [v.key] for an own data property. *)
Fixpoint own_property (key : list N) (props : list (list N * JSValue)) : option JSValue :=
  match props with
  | [] => None
  | (k, v) :: props' =>
      if list_eq_dec N.eq_dec k key then Some v else own_property key props'
  end.

(** The double quote, and a text between double quotes. *)
Definition dquote : string := String (ascii_of_nat 34) EmptyString.
Definition quoted (s : string) : string := dquote ++ s ++ dquote.

(** A text is well-formed JSON when JSON.parse accepts it. *)
Definition well_formed (json : string) : Prop :=
  exists v, JSON.parse json = Normal v.

(** The view of a parsed object as a rectangle: own number properties
    [width] and [height]. *)
Definition as_Rectangle (v : JSValue) : option Rectangle_object :=
  match v with
  | JSObject _ properties =>
      match own_property (units "width") properties,
            own_property (units "height") properties with
      | Some (JSNumber w), Some (JSNumber h) => Some (Rectangle w h)
      | _, _ => None
      end
  | _ => None
  end.
(** ** The css selector builder: errors

    The two messages of the source, character for character. *)
Definition ORDER_MESSAGE : string :=
  "Selector parts should be arranged in the following order: element, id, class, attribute, pseudo-class, pseudo-element".

Definition DUPLICATE_MESSAGE : string :=
  "Element, id and pseudo-element should not occur more then one time inside the selector".

(** ** The fields of a SimpleSelector

    [el], [elId] and [attribute] hold [null] ([None]) or a string;
    the three others are arrays of strings. *)

Record SimpleSelector : Type := mkSimpleSelector {
  el : option string;
  elId : option string;
  classes : list string;
  attribute : option string;
  pseudoClassEl : list string;
  pseudoElementEl : list string
}.

(** [constructor()] *)
Definition new_SimpleSelector : SimpleSelector :=
  {| el := None; elId := None; classes := []; attribute := None;
     pseudoClassEl := []; pseudoElementEl := [] |}.

(** JavaScript truthiness of a field that is [null] or a string:
    [null] and the empty string are falsy. *)
Definition truthy (v : option string) : bool :=
  match v with
  | None => false
  | Some EmptyString => false
  | Some (String _ _) => true
  end.

(** Truthiness of [arr.length]. *)
Definition has_length {A : Type} (arr : list A) : bool :=
  match arr with
  | [] => false
  | _ :: _ => true
  end.

(** [arr.join(sep)] on an array of strings. *)
Definition join (arr : list string) (sep : string) : string :=
  String.concat sep arr.

(** Field writes. *)
Definition set_el (v : option string) (s : SimpleSelector) : SimpleSelector :=
  {| el := v; elId := elId s; classes := classes s; attribute := attribute s;
     pseudoClassEl := pseudoClassEl s; pseudoElementEl := pseudoElementEl s |}.

Definition set_elId (v : option string) (s : SimpleSelector) : SimpleSelector :=
  {| el := el s; elId := v; classes := classes s; attribute := attribute s;
     pseudoClassEl := pseudoClassEl s; pseudoElementEl := pseudoElementEl s |}.

Definition set_attribute (v : option string) (s : SimpleSelector) : SimpleSelector :=
  {| el := el s; elId := elId s; classes := classes s; attribute := v;
     pseudoClassEl := pseudoClassEl s; pseudoElementEl := pseudoElementEl s |}.

(** [this.classes.push(...vals)] and its two siblings. *)
Definition push_classes (vals : list string) (s : SimpleSelector) : SimpleSelector :=
  {| el := el s; elId := elId s; classes := (classes s ++ vals)%list;
     attribute := attribute s;
     pseudoClassEl := pseudoClassEl s; pseudoElementEl := pseudoElementEl s |}.

Definition push_pseudoClassEl (vals : list string) (s : SimpleSelector) : SimpleSelector :=
  {| el := el s; elId := elId s; classes := classes s; attribute := attribute s;
     pseudoClassEl := (pseudoClassEl s ++ vals)%list; pseudoElementEl := pseudoElementEl s |}.

Definition push_pseudoElementEl (vals : list string) (s : SimpleSelector) : SimpleSelector :=
  {| el := el s; elId := elId s; classes := classes s; attribute := attribute s;
     pseudoClassEl := pseudoClassEl s; pseudoElementEl := (pseudoElementEl s ++ vals)%list |}.

(** ** The method monad: state of [this] plus exceptions *)

Definition M (A : Type) : Type := SimpleSelector -> SimpleSelector * completion A.

Definition ret {A : Type} (a : A) : M A := fun this => (this, Normal a).

Definition bind {A B : Type} (m : M A) (k : A -> M B) : M B :=
  fun this =>
    match m this with
    | (this', Normal a) => k a this'
    | (this', Throw e) => (this', Throw e)
    end.

Definition throw {A : Type} (e : JSError) : M A := fun this => (this, Throw e).

(** Read a field of [this]. *)
Definition read {A : Type} (field : SimpleSelector -> A) : M A :=
  fun this => (this, Normal (field this)).

(** Mutate [this]. *)
Definition write (upd : SimpleSelector -> SimpleSelector) : M unit :=
  fun this => (upd this, Normal tt).

(** [if (c) { throw e; }] *)
Definition throw_if (c : bool) (e : JSError) : M unit :=
  if c then throw e else ret tt.

Declare Scope method_scope.
Delimit Scope method_scope with method.
Notation "x <- m ;; k" := (bind m (fun x => k))
  (at level 100, m at next level, right associativity) : method_scope.
Notation "m ;; k" := (bind m (fun _ => k))
  (at level 100, right associativity) : method_scope.

(** What a method hands back: [this], or a plain string. *)
Inductive returned : Type :=
| This
| Str (v : string).

(** String conversion of such a field inside a template literal or [+=]. *)
Definition text (v : option string) : string :=
  match v with
  | None => "null"
  | Some str => str
  end.

(** ** class SimpleSelector: the six add-part methods and stringify *)

Module SimpleSelector.
Local Open Scope method_scope.

Definition element (v : string) : M returned :=
  a <- read elId ;;
  b <- read classes ;;
  c <- read attribute ;;
  d <- read pseudoClassEl ;;
  e <- read pseudoElementEl ;;
  throw_if (truthy a || has_length b || truthy c || has_length d || has_length e)
           (Error ORDER_MESSAGE) ;;
  f <- read el ;;
  throw_if (truthy f) (Error DUPLICATE_MESSAGE) ;;
  write (set_el (Some v)) ;;
  ret (Str v).

Definition id (val : string) : M returned :=
  b <- read classes ;;
  c <- read attribute ;;
  d <- read pseudoClassEl ;;
  e <- read pseudoElementEl ;;
  throw_if (has_length b || truthy c || has_length d || has_length e)
           (Error ORDER_MESSAGE) ;;
  a <- read elId ;;
  throw_if (truthy a) (Error DUPLICATE_MESSAGE) ;;
  write (set_elId (Some val)) ;;
  ret This.

Definition class (vals : list string) : M returned :=
  c <- read attribute ;;
  d <- read pseudoClassEl ;;
  e <- read pseudoElementEl ;;
  throw_if (truthy c || has_length d || has_length e) (Error ORDER_MESSAGE) ;;
  write (push_classes vals) ;;
  ret This.

Definition attr (value : string) : M returned :=
  d <- read pseudoClassEl ;;
  e <- read pseudoElementEl ;;
  throw_if (has_length d || has_length e) (Error ORDER_MESSAGE) ;;
  write (set_attribute (Some value)) ;;
  ret This.

Definition pseudoClass (values : list string) : M returned :=
  e <- read pseudoElementEl ;;
  throw_if (has_length e) (Error ORDER_MESSAGE) ;;
  write (push_pseudoClassEl values) ;;
  ret This.

Definition pseudoElement (value : string) : M returned :=
  e <- read pseudoElementEl ;;
  throw_if (has_length e) (Error DUPLICATE_MESSAGE) ;;
  write (push_pseudoElementEl [value]) ;;
  ret This.

(** [stringify()] only reads; [output] is threaded through the six tests. *)
Definition stringify (this : SimpleSelector) : string :=
  let output := "" in
  let output :=
    if truthy (el this) then output ++ text (el this) else output in
  let output :=
    if truthy (elId this) then output ++ ("#" ++ text (elId this)) else output in
  let output :=
    if has_length (classes this)
    then output ++ ("." ++ join (classes this) ".") else output in
  let output :=
    if truthy (attribute this)
    then output ++ ("[" ++ text (attribute this) ++ "]") else output in
  let output :=
    if has_length (pseudoClassEl this)
    then output ++ (":" ++ join (pseudoClassEl this) ":") else output in
  let output :=
    if has_length (pseudoElementEl this)
    then output ++ ("::" ++ join (pseudoElementEl this) "::") else output in
  output.

End SimpleSelector.

(** ** Selectors: SimpleSelector instances and CombinedSelector objects

    [CombinedSelector s1 sep s2] is the object built by
    [new CombinedSelector(s1, sep, s2)]; its [stringify] calls the
    [stringify] of both children, whichever kind they are. *)

Inductive selector : Type :=
| Simple (s : SimpleSelector)
| CombinedSelector (s1 : selector) (sep : string) (s2 : selector).

Fixpoint stringify (this : selector) : string :=
  match this with
  | Simple s => SimpleSelector.stringify s
  | CombinedSelector s1 sep s2 =>
      stringify s1 ++ " " ++ sep ++ " " ++ stringify s2
  end.

(** ** Values that flow through a chain of calls

    A call in a chain is made on whatever the previous call returned:
    a SimpleSelector instance (with its current fields) or a string. *)

Inductive receiver : Type :=
| Instance (s : SimpleSelector)
| StringValue (v : string).

(** [recv.m(...)]: a string has none of the selector methods, so the call
    itself is a [TypeError]. *)
Definition call_method (recv : receiver) (m : M returned) : completion receiver :=
  match recv with
  | Instance this =>
      match m this with
      | (this', Normal This) => Normal (Instance this')
      | (_, Normal (Str v)) => Normal (StringValue v)
      | (_, Throw e) => Throw e
      end
  | StringValue _ => Throw TypeError
  end.

(** [recv.stringify()] *)
Definition call_stringify (recv : receiver) : completion string :=
  match recv with
  | Instance this => Normal (SimpleSelector.stringify this)
  | StringValue _ => Throw TypeError
  end.

(** ** const cssSelectorBuilder: the facade *)

Module cssSelectorBuilder.

Definition element (value : string) : completion receiver :=
  let s := new_SimpleSelector in
  let s := set_el (Some value) s in
  Normal (Instance s).

Definition id (value : string) : completion receiver :=
  call_method (Instance new_SimpleSelector) (SimpleSelector.id value).

Definition class (value : string) : completion receiver :=
  call_method (Instance new_SimpleSelector) (SimpleSelector.class [value]).

Definition attr (value : string) : completion receiver :=
  call_method (Instance new_SimpleSelector) (SimpleSelector.attr value).

Definition pseudoClass (value : string) : completion receiver :=
  call_method (Instance new_SimpleSelector) (SimpleSelector.pseudoClass [value]).

Definition pseudoElement (value : string) : completion receiver :=
  call_method (Instance new_SimpleSelector) (SimpleSelector.pseudoElement value).

Definition combine (selector1 : selector) (combinator : string) (selector2 : selector)
  : selector :=
  CombinedSelector selector1 combinator selector2.

End cssSelectorBuilder.

(** ** Chains of calls

    A chain is [cssSelectorBuilder.k(name)] followed by method calls, each on
    the result of the one before.  The facade passes exactly one name; the
    methods [class] and [pseudoClass] are variadic. *)

Inductive category : Type :=
| CElement | CId | CClass | CAttribute | CPseudoClass | CPseudoElement.

(** Position in "element, id, class, attribute, pseudo-class, pseudo-element". *)
Definition rank (k : category) : nat :=
  match k with
  | CElement => 0
  | CId => 1
  | CClass => 2
  | CAttribute => 3
  | CPseudoClass => 4
  | CPseudoElement => 5
  end.

Definition category_eqb (j k : category) : bool := Nat.eqb (rank j) (rank k).

(** One selector part: its category and the name given for it. *)
Record part : Type := mkPart { kind : category; name : string }.

Inductive call : Type :=
| Element (v : string)
| Id (val : string)
| Class (vals : list string)
| Attr (value : string)
| PseudoClass (values : list string)
| PseudoElement (value : string).

Definition method_of (c : call) : M returned :=
  match c with
  | Element v => SimpleSelector.element v
  | Id val => SimpleSelector.id val
  | Class vals => SimpleSelector.class vals
  | Attr value => SimpleSelector.attr value
  | PseudoClass values => SimpleSelector.pseudoClass values
  | PseudoElement value => SimpleSelector.pseudoElement value
  end.

Definition category_of (c : call) : category :=
  match c with
  | Element _ => CElement
  | Id _ => CId
  | Class _ => CClass
  | Attr _ => CAttribute
  | PseudoClass _ => CPseudoClass
  | PseudoElement _ => CPseudoElement
  end.

(** The facade operation for a part. *)
Definition create (p : part) : completion receiver :=
  match kind p with
  | CElement => cssSelectorBuilder.element (name p)
  | CId => cssSelectorBuilder.id (name p)
  | CClass => cssSelectorBuilder.class (name p)
  | CAttribute => cssSelectorBuilder.attr (name p)
  | CPseudoClass => cssSelectorBuilder.pseudoClass (name p)
  | CPseudoElement => cssSelectorBuilder.pseudoElement (name p)
  end.

Record chain : Type := mkChain { first : part; rest : list call }.

(** Calls made one after the other on the receiver at hand; the first throw
    ends the chain. *)
Fixpoint continue (recv : completion receiver) (cs : list call) : completion receiver :=
  match cs with
  | [] => recv
  | c :: cs' =>
      match recv with
      | Normal r => continue (call_method r (method_of c)) cs'
      | Throw e => Throw e
      end
  end.

Definition run (ch : chain) : completion receiver :=
  continue (create (first ch)) (rest ch).

(** [chain.stringify()] *)
Definition run_stringify (ch : chain) : completion string :=
  match run ch with
  | Normal r => call_stringify r
  | Throw e => Throw e
  end.

(** *** What a chain asks for, independently of the code

    The categories of the calls in call order, and the parts they add. *)

Definition categories (ch : chain) : list category :=
  kind (first ch) :: map category_of (rest ch).

Definition parts_of_call (c : call) : list part :=
  match c with
  | Element v => [mkPart CElement v]
  | Id val => [mkPart CId val]
  | Class vals => map (mkPart CClass) vals
  | Attr value => [mkPart CAttribute value]
  | PseudoClass values => map (mkPart CPseudoClass) values
  | PseudoElement value => [mkPart CPseudoElement value]
  end.

Definition parts (ch : chain) : list part :=
  first ch :: flat_map parts_of_call (rest ch).

(** Category order: no call belongs to a category before the one already
    reached. *)
Fixpoint in_order (reached : nat) (ks : list category) : bool :=
  match ks with
  | [] => true
  | k :: ks' => Nat.leb reached (rank k) && in_order (rank k) ks'
  end.

Definition respects_order (ch : chain) : bool := in_order 0 (categories ch).

(** Singleton limits: element, id, attribute and pseudo-element are each
    called at most once. *)
Definition occurrences (k : category) (ks : list category) : nat :=
  length (filter (category_eqb k) ks).

Definition singleton (k : category) : bool :=
  match k with
  | CElement | CId | CAttribute | CPseudoElement => true
  | CClass | CPseudoClass => false
  end.

Definition respects_singletons (ch : chain) : bool :=
  forallb (fun k => Nat.leb (occurrences k (categories ch)) 1)
          [CElement; CId; CAttribute; CPseudoElement].

(** *** Renderings over the parts asked for

    In [concatenation] an id or an attribute expression is emitted when it
    was given and is not the empty string, a pseudo-element as soon as it
    was given (the empty string included). *)

Definition names_of (k : category) (ps : list part) : list string :=
  map name (filter (fun p => category_eqb k (kind p)) ps).

Definition the_one (k : category) (ps : list part) : option string :=
  hd_error (names_of k ps).

Definition non_empty (n : string) : bool :=
  match n with
  | EmptyString => false
  | String _ _ => true
  end.

Definition concatenation (ps : list part) : string :=
  let elementName :=
    match the_one CElement ps with Some n => n | None => "" end in
  let idPart :=
    match the_one CId ps with
    | Some n => if non_empty n then "#" ++ n else ""
    | None => ""
    end in
  let classPart :=
    match names_of CClass ps with
    | [] => ""
    | ns => "." ++ String.concat "." ns
    end in
  let attributePart :=
    match the_one CAttribute ps with
    | Some n => if non_empty n then "[" ++ n ++ "]" else ""
    | None => ""
    end in
  let pseudoClassPart :=
    match names_of CPseudoClass ps with
    | [] => ""
    | ns => ":" ++ String.concat ":" ns
    end in
  let pseudoElementPart :=
    match the_one CPseudoElement ps with
    | Some n => "::" ++ n
    | None => ""
    end in
  elementName ++ idPart ++ classPart ++ attributePart
              ++ pseudoClassPart ++ pseudoElementPart.

(** The fields a chain leaves behind when every call goes through: what the
    proofs below compare the code's state with. *)
Definition accumulated (ps : list part) : SimpleSelector :=
  {| el := the_one CElement ps;
     elId := the_one CId ps;
     classes := names_of CClass ps;
     attribute := the_one CAttribute ps;
     pseudoClassEl := names_of CPseudoClass ps;
     pseudoElementEl := names_of CPseudoElement ps |}.

(** ** Vocabulary of the error claims *)

(** The two errors the selector methods throw. *)
Definition OrderError : JSError := Error ORDER_MESSAGE.
Definition DuplicateError : JSError := Error DUPLICATE_MESSAGE.

(** A category is populated on an instance when its field holds something:
    a non-empty string, or an array with at least one entry. *)
Definition populated (k : category) (this : SimpleSelector) : bool :=
  match k with
  | CElement => truthy (el this)
  | CId => truthy (elId this)
  | CClass => has_length (classes this)
  | CAttribute => truthy (attribute this)
  | CPseudoClass => has_length (pseudoClassEl this)
  | CPseudoElement => has_length (pseudoElementEl this)
  end.

Definition all_categories : list category :=
  [CElement; CId; CClass; CAttribute; CPseudoClass; CPseudoElement].

(** Some category that comes after [k] in the fixed order is populated. *)
Definition populated_after (k : category) (this : SimpleSelector) : bool :=
  existsb (fun j => Nat.ltb (rank k) (rank j) && populated j this) all_categories.

(** The duplicate message as the specification quotes it. *)
Definition QUOTED_DUPLICATE_MESSAGE : string :=
  "Element, id and pseudo-element should not occur more than one time inside the selector".

(** The same rendering when "present" is read as "given": every name that
    was given is emitted, empty or not. *)
Definition concatenation_of_given (ps : list part) : string :=
  let elementName :=
    match the_one CElement ps with Some n => n | None => "" end in
  let idPart :=
    match the_one CId ps with Some n => "#" ++ n | None => "" end in
  let classPart :=
    match names_of CClass ps with
    | [] => ""
    | ns => "." ++ String.concat "." ns
    end in
  let attributePart :=
    match the_one CAttribute ps with Some n => "[" ++ n ++ "]" | None => "" end in
  let pseudoClassPart :=
    match names_of CPseudoClass ps with
    | [] => ""
    | ns => ":" ++ String.concat ":" ns
    end in
  let pseudoElementPart :=
    match the_one CPseudoElement ps with Some n => "::" ++ n | None => "" end in
  elementName ++ idPart ++ classPart ++ attributePart
              ++ pseudoClassPart ++ pseudoElementPart.

(** The rendering when "present" is read as "given and not the empty string"
    for every part, the pseudo-element included. *)
Definition concatenation_of_non_empty (ps : list part) : string :=
  let elementName :=
    match the_one CElement ps with Some n => n | None => "" end in
  let idPart :=
    match the_one CId ps with
    | Some n => if non_empty n then "#" ++ n else ""
    | None => ""
    end in
  let classPart :=
    match names_of CClass ps with
    | [] => ""
    | ns => "." ++ String.concat "." ns
    end in
  let attributePart :=
    match the_one CAttribute ps with
    | Some n => if non_empty n then "[" ++ n ++ "]" else ""
    | None => ""
    end in
  let pseudoClassPart :=
    match names_of CPseudoClass ps with
    | [] => ""
    | ns => ":" ++ String.concat ":" ns
    end in
  let pseudoElementPart :=
    match the_one CPseudoElement ps with
    | Some n => if non_empty n then "::" ++ n else ""
    | None => ""
    end in
  elementName ++ idPart ++ classPart ++ attributePart
              ++ pseudoClassPart ++ pseudoElementPart.

(** ** Further vocabulary for chains *)

(** The last name given for a category. *)
Definition last_one (k : category) (ps : list part) : option string :=
  hd_error (rev (names_of k ps)).

(** The fields a chain leaves behind when it goes through, whatever it
    repeats: of several ids or attribute expressions the last one stays. *)
Definition left_by (ps : list part) : SimpleSelector :=
  {| el := the_one CElement ps;
     elId := last_one CId ps;
     classes := names_of CClass ps;
     attribute := last_one CAttribute ps;
     pseudoClassEl := names_of CPseudoClass ps;
     pseudoElementEl := names_of CPseudoElement ps |}.

(** The rendering of the parts asked for, in the fixed category order, with
    the last id and the last attribute expression given. *)
Definition rendering (ps : list part) : string :=
  let elementName :=
    match the_one CElement ps with Some n => n | None => "" end in
  let idPart :=
    match last_one CId ps with
    | Some n => if non_empty n then "#" ++ n else ""
    | None => ""
    end in
  let classPart :=
    match names_of CClass ps with
    | [] => ""
    | ns => "." ++ String.concat "." ns
    end in
  let attributePart :=
    match last_one CAttribute ps with
    | Some n => if non_empty n then "[" ++ n ++ "]" else ""
    | None => ""
    end in
  let pseudoClassPart :=
    match names_of CPseudoClass ps with
    | [] => ""
    | ns => ":" ++ String.concat ":" ns
    end in
  let pseudoElementPart :=
    match the_one CPseudoElement ps with
    | Some n => "::" ++ n
    | None => ""
    end in
  elementName ++ idPart ++ classPart ++ attributePart
              ++ pseudoClassPart ++ pseudoElementPart.

(** The categories the code guards against a second call. *)
Definition limited (k : category) : bool :=
  match k with
  | CElement | CId | CPseudoElement => true
  | CClass | CAttribute | CPseudoClass => false
  end.

Definition respects_limits (ch : chain) : bool :=
  forallb (fun k => Nat.leb (occurrences k (categories ch)) 1)
          [CElement; CId; CPseudoElement].

(** A call that names something: no empty name, no empty argument list. *)
Definition names_something (c : call) : bool :=
  match c with
  | Element v | Id v | Attr v | PseudoElement v => non_empty v
  | Class vals | PseudoClass vals => has_length vals && forallb non_empty vals
  end.

Definition well_named (ch : chain) : bool :=
  non_empty (name (first ch)) && forallb names_something (rest ch).

(** Parts all of which carry a non-empty name. *)
Definition all_named (ps : list part) : Prop :=
  forall p, In p ps -> non_empty (name p) = true.

(** The text a call contributes to the rendering. *)
Definition text_of (c : call) : string :=
  match c with
  | Element v => v
  | Id val => if non_empty val then "#" ++ val else ""
  | Class vals =>
      match vals with [] => "" | _ => "." ++ String.concat "." vals end
  | Attr value => if non_empty value then "[" ++ value ++ "]" else ""
  | PseudoClass values =>
      match values with [] => "" | _ => ":" ++ String.concat ":" values end
  | PseudoElement value => "::" ++ value
  end.

(** The states an instance can be in: fresh from the constructor, after the
    facade wrote [el] on a fresh one, or after any method call (whether it
    returned or threw) on an instance already in such a state. *)
Inductive reachable : SimpleSelector -> Prop :=
| reach_new : reachable new_SimpleSelector
| reach_facade_element value : reachable (set_el (Some value) new_SimpleSelector)
| reach_call c this : reachable this -> reachable (fst (method_of c this)).

(** A value all of whose objects and arrays, at every depth, have the
    prototype the parser gives them. *)
Fixpoint plain (v : JSValue) : bool :=
  match v with
  | JSArray Array_prototype elements => forallb plain elements
  | JSObject Object_prototype properties =>
      forallb (fun kv => match kv with (_, x) => plain x end) properties
  | JSArray _ _ | JSObject _ _ => false
  | _ => true
  end.

Definition plain_property (kv : list N * JSValue) : bool :=
  match kv with (_, x) => plain x end.

(** The values held by the own properties or elements of an object or array. *)
Definition contents (v : JSValue) : list JSValue :=
  match v with
  | JSArray _ elements => elements
  | JSObject _ properties => map snd properties
  | _ => []
  end.

(** * Properties *)

(** * Rectangle *)

(** C7. For all numbers [w] and [h], [new Rectangle(w, h)] has width [w] and
    height [h] and its area operation returns [w * h]; and
    [new Rectangle(10,20)] has area 200. *)
Theorem rectangle_area :
  (forall w h : float,
     width (Rectangle w h) = w
     /\ height (Rectangle w h) = h
     /\ getArea (Rectangle w h) = PrimFloat.mul w h)
  /\ getArea (Rectangle 10 20) = 200%float.
Proof. split; [intros w h; repeat split | reflexivity]. Qed.


(** * fromJSON *)

(** ** JSON.parse never reaches its recursion bound *)

Module JSONFacts.
Import JSON.

Lemma skip_ws_length t : length (skip_ws t) <= length t.
Proof.
  induction t as [|c t IH]; simpl; [lia|].
  destruct (is_ws c); simpl; lia.
Qed.

Lemma skip_ws_cons t c r : skip_ws t = c :: r -> S (length r) <= length t.
Proof. intros H. pose proof (skip_ws_length t) as L. rewrite H in L. exact L. Qed.

Lemma expect_length w : forall t r, expect w t = Some r -> length r <= length t.
Proof.
  induction w as [|a w IH]; intros t r H; simpl in H.
  - injection H as <-. lia.
  - destruct t as [|c t]; [discriminate|].
    destruct (N.eqb c a); [|discriminate].
    apply IH in H. simpl. lia.
Qed.

Lemma digits_length t : forall acc k m c r,
  digits t acc k = (m, c, r) -> length r <= length t.
Proof.
  induction t as [|a t IH]; intros acc k m c r H; simpl in H.
  - injection H as _ _ <-. lia.
  - destruct (digit a).
    + apply IH in H. simpl. lia.
    + injection H as _ _ <-. lia.
Qed.

Lemma int_part_length t m r : int_part t = Some (m, r) -> length r < length t.
Proof.
  unfold int_part. intros H. destruct t as [|c t]; [discriminate|].
  destruct (N.eqb c 48).
  - injection H as _ <-. simpl. lia.
  - destruct (digit c); [|discriminate].
    destruct (digits t n 1) as [[m' k] r'] eqn:E.
    injection H as _ <-. apply digits_length in E. simpl. lia.
Qed.

Lemma frac_part_length m t m' k r :
  frac_part m t = Some (m', k, r) -> length r <= length t.
Proof.
  unfold frac_part. intros H. destruct t as [|c t].
  - injection H as _ _ <-. lia.
  - destruct (N.eqb c 46).
    + destruct (digits t m 0) as [[m1 k1] r1] eqn:E.
      destruct (N.eqb k1 0); [discriminate|].
      injection H as _ _ <-. apply digits_length in E. simpl. lia.
    + injection H as _ _ <-. lia.
Qed.

Lemma minus_sign_length t neg u : minus_sign t = (neg, u) -> length u <= length t.
Proof.
  unfold minus_sign. intros H. destruct t as [|c t']; [injection H as _ <-; lia|].
  destruct (N.eqb c 45); injection H as _ <-; simpl; lia.
Qed.

Lemma exp_sign_length t neg u : exp_sign t = (neg, u) -> length u <= length t.
Proof.
  unfold exp_sign. intros H. destruct t as [|c t']; [injection H as _ <-; lia|].
  destruct (N.eqb c 45); [injection H as _ <-; simpl; lia|].
  destruct (N.eqb c 43); injection H as _ <-; simpl; lia.
Qed.

Lemma exp_part_length t e r : exp_part t = Some (e, r) -> length r <= length t.
Proof.
  unfold exp_part. intros H. destruct t as [|c t].
  - injection H as _ <-. lia.
  - destruct (N.eqb c 101 || N.eqb c 69).
    + destruct (exp_sign t) as [neg u] eqn:Eu. apply exp_sign_length in Eu.
      destruct (digits u 0 0) as [[e1 k1] r1] eqn:E.
      destruct (N.eqb k1 0); [discriminate|].
      injection H as _ <-. apply digits_length in E. simpl. lia.
    + injection H as _ <-. lia.
Qed.

Lemma number_length t x r : number t = Parsed x r -> length r < length t.
Proof.
  unfold number. intros H.
  destruct (minus_sign t) as [neg t1] eqn:E1. apply minus_sign_length in E1.
  destruct (int_part t1) as [[m t2]|] eqn:E2; [|discriminate].
  destruct (frac_part m t2) as [[[m' k] t3]|] eqn:E3; [|discriminate].
  destruct (exp_part t3) as [[e t4]|] eqn:E4; [|discriminate].
  injection H as _ <-.
  apply int_part_length in E2. apply frac_part_length in E3.
  apply exp_part_length in E4. lia.
Qed.

Lemma number_bounded t : number t <> OutOfFuel.
Proof.
  unfold number.
  destruct (minus_sign t) as [neg t1].
  destruct (int_part t1) as [[m t2]|]; [|discriminate].
  destruct (frac_part m t2) as [[[m' k] t3]|]; [|discriminate].
  destruct (exp_part t3) as [[e t4]|]; discriminate.
Qed.

Ltac destruct_match_in H :=
  match type of H with
  | context [match ?x with _ => _ end] => destruct x eqn:?
  end.

Ltac destruct_match_goal :=
  match goal with
  | |- context [match ?x with _ => _ end] => destruct x eqn:?
  end.

Lemma string_chars_length n : forall t acc s r,
  length t <= n -> string_chars t acc = Parsed s r -> length r < length t.
Proof.
  induction n as [|n IH]; intros t acc s r Hn H.
  - destruct t; simpl in *; [discriminate | lia].
  - destruct t as [|c t']; [discriminate|]. simpl in H, Hn.
    repeat (destruct_match_in H; try discriminate H); subst; simpl in *;
      first [ injection H as _ <-; lia
            | apply IH in H; [lia | simpl; lia] ].
Qed.

Lemma string_chars_bounded n : forall t acc,
  length t <= n -> string_chars t acc <> OutOfFuel.
Proof.
  induction n as [|n IH]; intros t acc Hn.
  - destruct t; simpl in *; [discriminate | lia].
  - destruct t as [|c t']; [discriminate|]. simpl in Hn. simpl.
    repeat (destruct_match_goal; try discriminate); subst; simpl in *;
      apply IH; simpl; lia.
Qed.

Lemma parsers_length fuel :
  (forall t v r, value fuel t = Parsed v r -> length r < length t)
  /\ (forall t acc v r, elements fuel t acc = Parsed v r -> length r < length t)
  /\ (forall t props v r, members fuel t props = Parsed v r -> length r < length t).
Proof.
  induction fuel as [|f (IHv & IHe & IHm)];
    [repeat split; intros; discriminate|].
  repeat split; intros until r; intros H; cbn [value elements members] in H;
    repeat (destruct_match_in H; try discriminate H);
    repeat match goal with
           | E : expect _ _ = Some _ |- _ => apply expect_length in E
           | E : string_chars _ _ = Parsed _ _ |- _ =>
               apply (string_chars_length _ _ _ _ _ (le_n _)) in E
           | E : number _ = Parsed _ _ |- _ => apply number_length in E
           | E : skip_ws _ = _ :: _ |- _ => apply skip_ws_cons in E
           | E : value f _ = Parsed _ _ |- _ => apply IHv in E
           | E : elements f _ _ = Parsed _ _ |- _ => apply IHe in E
           | E : members f _ _ = Parsed _ _ |- _ => apply IHm in E
           end;
    try (injection H as _ <-); simpl in *; lia.
Qed.

Lemma value_length fuel t v r : value fuel t = Parsed v r -> length r < length t.
Proof. apply (parsers_length fuel). Qed.

Lemma parsers_bounded fuel :
  (forall t, 2 * length t + 1 <= fuel -> value fuel t <> OutOfFuel)
  /\ (forall t acc, 2 * length t + 2 <= fuel -> elements fuel t acc <> OutOfFuel)
  /\ (forall t props, 2 * length t + 2 <= fuel -> members fuel t props <> OutOfFuel).
Proof.
  induction fuel as [|f (IHv & IHe & IHm)]; [repeat split; intros; lia|].
  repeat split.
  - intros t Hf. cbn [value].
    destruct (skip_ws t) as [|c r] eqn:Ews; [discriminate|].
    apply skip_ws_cons in Ews.
    repeat (destruct_match_goal; try discriminate);
      repeat match goal with
             | E : skip_ws _ = _ :: _ |- _ => apply skip_ws_cons in E
             | E : string_chars ?r ?a = OutOfFuel |- _ =>
                 exfalso; exact (string_chars_bounded _ r a (le_n _) E)
             | E : number ?x = OutOfFuel |- _ =>
                 exfalso; exact (number_bounded x E)
             end;
      first [ apply IHe | apply IHm ]; simpl in *; lia.
  - intros t acc Hf. cbn [elements].
    destruct (value f t) as [v r| |] eqn:Ev; [|discriminate|].
    + apply value_length in Ev.
      destruct (skip_ws r) as [|c r'] eqn:Ews; [discriminate|].
      apply skip_ws_cons in Ews.
      repeat (destruct_match_goal; try discriminate).
      apply IHe. lia.
    + exfalso. apply (IHv t); [lia | exact Ev].
  - intros t props Hf. cbn [members].
    destruct (skip_ws t) as [|c r] eqn:Ews; [discriminate|].
    apply skip_ws_cons in Ews.
    destruct (N.eqb c 34); [|discriminate].
    destruct (string_chars r []) as [key r1| |] eqn:Es; [|discriminate|].
    + apply (string_chars_length _ _ _ _ _ (le_n _)) in Es.
      destruct (skip_ws r1) as [|c1 r2] eqn:Ews1; [discriminate|].
      apply skip_ws_cons in Ews1.
      destruct (N.eqb c1 58); [|discriminate].
      destruct (value f r2) as [v r3| |] eqn:Ev; [|discriminate|].
      * apply value_length in Ev.
        destruct (skip_ws r3) as [|c3 r4] eqn:Ews3; [discriminate|].
        apply skip_ws_cons in Ews3.
        repeat (destruct_match_goal; try discriminate).
        apply IHm. lia.
      * exfalso. apply (IHv r2); [lia | exact Ev].
    + exfalso. exact (string_chars_bounded _ r [] (le_n _) Es).
Qed.

(** The bound [enough] is never reached: every text is parsed or refused. *)
Lemma parse_units_bounded t : parse_units t <> OutOfFuel.
Proof.
  unfold parse_units.
  destruct (value (enough t) t) as [v r| |] eqn:E.
  - destruct (skip_ws r); discriminate.
  - discriminate.
  - exfalso. apply (proj1 (parsers_bounded (enough t)) t); [unfold enough; lia | exact E].
Qed.

End JSONFacts.

(** ** C8: fromJSON *)

Lemma parse_throws json e : JSON.parse json = Throw e -> e = SyntaxError.
Proof.
  unfold JSON.parse. destruct (JSON.parse_units (units json));
    intros H; inversion H; reflexivity.
Qed.

(** Every text is either well-formed or refused with a SyntaxError; the
    recursion bound of the parser plays no part. *)
Lemma parse_decides json :
  JSON.parse_units (units json) <> JSON.OutOfFuel
  /\ (well_formed json \/ JSON.parse json = Throw SyntaxError).
Proof.
  split; [apply JSONFacts.parse_units_bounded|].
  unfold well_formed. destruct (JSON.parse json) as [v|e] eqn:E.
  - left. now exists v.
  - right. now rewrite (parse_throws json e E).
Qed.

(** The text [null] is well-formed, yet [fromJSON] throws a TypeError on it;
    and on the well-formed text [5] it returns the number itself, which
    carries no prototype of its own. *)
Lemma fromJSON_null_and_number :
  JSON.parse "null" = Normal JSNull
  /\ fromJSON (Reference "Circle.prototype") "null" = Throw TypeError
  /\ fromJSON (Reference "Circle.prototype") "5" = Normal (JSNumber 5)
  /\ prototype_of (JSNumber 5) = None.
Proof. repeat split; vm_compute; reflexivity. Qed.

(** C8 (amended). [fromJSON(proto, json)] fails with a SyntaxError if and
    only if [json] is not well-formed JSON.  For a well-formed text whose
    value is an object or an array it returns that value with its prototype
    set to [proto]; when the value is [null] it fails with a TypeError; when
    the value is a number, a string or a boolean it returns that primitive
    unchanged. *)
Theorem fromJSON_outcomes (proto : prototype) (json : string) :
  (fromJSON proto json = Throw SyntaxError <-> ~ well_formed json)
  /\ (forall p properties,
        JSON.parse json = Normal (JSObject p properties) ->
        fromJSON proto json = Normal (JSObject proto properties)
        /\ prototype_of (JSObject proto properties) = Some proto)
  /\ (forall p elements,
        JSON.parse json = Normal (JSArray p elements) ->
        fromJSON proto json = Normal (JSArray proto elements)
        /\ prototype_of (JSArray proto elements) = Some proto)
  /\ (JSON.parse json = Normal JSNull -> fromJSON proto json = Throw TypeError)
  /\ (forall res,
        JSON.parse json = Normal res ->
        res <> JSNull -> prototype_of res = None ->
        fromJSON proto json = Normal res).
Proof.
  unfold fromJSON, well_formed.
  split; [|split; [|split; [|split]]].
  - destruct (JSON.parse json) as [res|e] eqn:E.
    + split.
      * destruct res; simpl; discriminate.
      * intros H. exfalso. apply H. now exists res.
    + rewrite (parse_throws json e E). split; [|reflexivity].
      intros _ [v Hv]. discriminate Hv.
  - intros p properties H. now rewrite H.
  - intros p elements H. now rewrite H.
  - intros H. now rewrite H.
  - intros res H Hnull Hproto. rewrite H.
    destruct res; simpl in *; try reflexivity; try discriminate Hproto.
    now elim Hnull.
Qed.

Lemma fromJSON_outcomes_witness :
  JSON.parse ("{" ++ quoted "width" ++ ":10," ++ quoted "height" ++ ":20}")
  = Normal (JSObject Object_prototype
              [(units "width", JSNumber 10); (units "height", JSNumber 20)])
  /\ fromJSON (Reference "Rectangle.prototype")
              ("{" ++ quoted "width" ++ ":10," ++ quoted "height" ++ ":20}")
     = Normal (JSObject (Reference "Rectangle.prototype")
                 [(units "width", JSNumber 10); (units "height", JSNumber 20)]).
Proof.
  split; [vm_compute; reflexivity|].
  refine (proj1 (proj1 (proj2 (fromJSON_outcomes (Reference "Rectangle.prototype")
            ("{" ++ quoted "width" ++ ":10," ++ quoted "height" ++ ":20}")))
            Object_prototype _ _)).
  vm_compute; reflexivity.
Defined.

(** The object obtained from that text, read as a rectangle, has area 200. *)
Lemma fromJSON_rectangle_area :
  exists o r,
    fromJSON (Reference "Rectangle.prototype")
             ("{" ++ quoted "width" ++ ":10," ++ quoted "height" ++ ":20}")
    = Normal o
    /\ prototype_of o = Some (Reference "Rectangle.prototype")
    /\ as_Rectangle o = Some r
    /\ getArea r = 200%float.
Proof.
  eexists. eexists. split; [vm_compute; reflexivity|].
  split; [reflexivity|]. split; [vm_compute; reflexivity|]. reflexivity.
Qed.

(** * The css selector builder *)

(** ** Strings *)

Lemma append_nil_r (s : string) : s ++ "" = s.
Proof. induction s as [|a s IH]; simpl; [reflexivity | now rewrite IH]. Qed.

Lemma append_assoc (s t u : string) : (s ++ t) ++ u = s ++ (t ++ u).
Proof. induction s as [|a s IH]; simpl; [reflexivity | now rewrite IH]. Qed.

Lemma append_if_r (c : bool) (s t : string) :
  (if c then s ++ t else s) = s ++ (if c then t else "").
Proof. destruct c; [reflexivity | now rewrite append_nil_r]. Qed.

(** ** Running methods *)

Ltac unfold_methods :=
  unfold method_of, SimpleSelector.element, SimpleSelector.id, SimpleSelector.class,
    SimpleSelector.attr, SimpleSelector.pseudoClass, SimpleSelector.pseudoElement,
    bind, read, write, throw_if, throw, ret in *.

(** ** Parts and names *)

Lemma names_of_app k ps qs :
  names_of k (ps ++ qs)%list = (names_of k ps ++ names_of k qs)%list.
Proof. unfold names_of. now rewrite filter_app, map_app. Qed.

Lemma names_of_above k ps reached :
  (forall p, In p ps -> rank (kind p) <= reached) ->
  reached < rank k ->
  names_of k ps = [].
Proof.
  intros Hall Hlt. unfold names_of.
  induction ps as [|p ps IH]; simpl; [reflexivity|].
  assert (Hp : rank (kind p) <= reached) by (apply Hall; now left).
  unfold category_eqb at 1.
  destruct (Nat.eqb_spec (rank k) (rank (kind p))) as [E|_]; [lia|].
  apply IH. intros q Hq. apply Hall. now right.
Qed.

Lemma names_of_same k vals : names_of k (map (mkPart k) vals) = vals.
Proof.
  unfold names_of. induction vals as [|v vals IH]; simpl; [reflexivity|].
  unfold category_eqb at 1. rewrite Nat.eqb_refl. simpl. now rewrite IH.
Qed.

Lemma names_of_other j k vals :
  rank j <> rank k -> names_of j (map (mkPart k) vals) = [].
Proof.
  intros Hne. unfold names_of. induction vals as [|v vals IH]; simpl; [reflexivity|].
  unfold category_eqb at 1.
  destruct (Nat.eqb_spec (rank j) (rank k)) as [E|_]; [contradiction | exact IH].
Qed.

Lemma names_of_parts_of_call k c :
  rank k <> rank (category_of c) -> names_of k (parts_of_call c) = [].
Proof.
  intros Hne. destruct c as [v|v|vs|v|vs|v];
    first [ exact (names_of_other k _ vs Hne) | exact (names_of_other k _ [v] Hne) ].
Qed.

Lemma length_nil {A : Type} (l : list A) : length l = 0 -> l = [].
Proof. destruct l; [reflexivity | discriminate]. Qed.

Lemma accumulated_app ps qs :
  accumulated (ps ++ qs)%list =
  {| el := hd_error (names_of CElement ps ++ names_of CElement qs)%list;
     elId := hd_error (names_of CId ps ++ names_of CId qs)%list;
     classes := (names_of CClass ps ++ names_of CClass qs)%list;
     attribute := hd_error (names_of CAttribute ps ++ names_of CAttribute qs)%list;
     pseudoClassEl := (names_of CPseudoClass ps ++ names_of CPseudoClass qs)%list;
     pseudoElementEl := (names_of CPseudoElement ps ++ names_of CPseudoElement qs)%list |}.
Proof. unfold accumulated, the_one. now rewrite !names_of_app. Qed.

(** One call of a chain that keeps the order and the limits goes through,
    returns [this], and adds exactly its parts. *)
Lemma call_in_order c ps reached :
  ps <> [] ->
  (forall p, In p ps -> rank (kind p) <= reached) ->
  reached <= rank (category_of c) ->
  (singleton (category_of c) = true -> names_of (category_of c) ps = []) ->
  call_method (Instance (accumulated ps)) (method_of c)
  = Normal (Instance (accumulated (ps ++ parts_of_call c)%list)).
Proof.
  intros Hne Hall Hle Hsingle.
  assert (Habove : forall k, rank (category_of c) < rank k -> names_of k ps = []).
  { intros k Hk. apply names_of_above with (reached := rank (category_of c)); [|exact Hk].
    intros p Hp. specialize (Hall p Hp). lia. }
  rewrite accumulated_app.
  destruct c as [v|v|vs|v|vs|v]; simpl in Hle, Hsingle, Habove.
  - (* element: a chain never reaches it *)
    exfalso. destruct ps as [|p ps]; [now apply Hne|].
    assert (Hp : rank (kind p) <= reached) by (apply Hall; now left).
    specialize (Hsingle eq_refl). unfold names_of in Hsingle. simpl in Hsingle.
    destruct (kind p); simpl in Hp; try lia. discriminate Hsingle.
  - specialize (Hsingle eq_refl).
    pose proof (Habove CClass ltac:(simpl; lia)) as H2.
    pose proof (Habove CAttribute ltac:(simpl; lia)) as H3.
    pose proof (Habove CPseudoClass ltac:(simpl; lia)) as H4.
    pose proof (Habove CPseudoElement ltac:(simpl; lia)) as H5.
    unfold_methods. unfold call_method, accumulated, the_one.
    rewrite Hsingle, H2, H3, H4, H5. simpl.
    unfold set_elId; simpl. now rewrite !app_nil_r.
  - clear Hsingle.
    pose proof (Habove CAttribute ltac:(simpl; lia)) as H3.
    pose proof (Habove CPseudoClass ltac:(simpl; lia)) as H4.
    pose proof (Habove CPseudoElement ltac:(simpl; lia)) as H5.
    unfold_methods. unfold call_method, accumulated, the_one.
    rewrite H3, H4, H5. simpl.
    unfold push_classes; simpl.
    rewrite names_of_same, !names_of_other by (simpl; lia).
    now rewrite !app_nil_r.
  - specialize (Hsingle eq_refl).
    pose proof (Habove CPseudoClass ltac:(simpl; lia)) as H4.
    pose proof (Habove CPseudoElement ltac:(simpl; lia)) as H5.
    unfold_methods. unfold call_method, accumulated, the_one.
    rewrite Hsingle, H4, H5. simpl.
    unfold set_attribute; simpl. now rewrite !app_nil_r.
  - clear Hsingle.
    pose proof (Habove CPseudoElement ltac:(simpl; lia)) as H5.
    unfold_methods. unfold call_method, accumulated, the_one.
    rewrite H5. simpl.
    unfold push_pseudoClassEl; simpl.
    rewrite names_of_same, !names_of_other by (simpl; lia).
    now rewrite !app_nil_r.
  - specialize (Hsingle eq_refl).
    unfold_methods. unfold call_method, accumulated, the_one.
    rewrite Hsingle. simpl.
    unfold push_pseudoElementEl; simpl. now rewrite !app_nil_r.
Qed.

Lemma kind_parts_of_call c p : In p (parts_of_call c) -> kind p = category_of c.
Proof.
  destruct c as [v|v|vs|v|vs|v]; simpl;
    try (intros [<-|[]]; reflexivity);
    rewrite in_map_iff; intros (x & <- & _); reflexivity.
Qed.

Lemma occurrences_cons k a ks :
  occurrences k (a :: ks) = occurrences k [a] + occurrences k ks.
Proof. unfold occurrences. simpl. now destruct (category_eqb k a). Qed.

Lemma singleton_parts_of_call k c :
  singleton k = true ->
  length (names_of k (parts_of_call c)) = occurrences k [category_of c].
Proof.
  intros Hk.
  destruct c as [v|v|vs|v|vs|v]; destruct k; try discriminate Hk;
    try reflexivity; simpl;
    rewrite names_of_other by (simpl; lia); reflexivity.
Qed.

(** The rest of a chain that keeps the order and the limits goes through. *)
Lemma continue_in_order cs : forall ps reached,
  ps <> [] ->
  (forall p, In p ps -> rank (kind p) <= reached) ->
  in_order reached (map category_of cs) = true ->
  (forall k, singleton k = true ->
     length (names_of k ps) + occurrences k (map category_of cs) <= 1) ->
  continue (Normal (Instance (accumulated ps))) cs
  = Normal (Instance (accumulated (ps ++ flat_map parts_of_call cs)%list)).
Proof.
  induction cs as [|c cs IH]; intros ps reached Hne Hall Hord Hlim;
    cbn [continue flat_map].
  - now rewrite app_nil_r.
  - simpl in Hord. apply andb_true_iff in Hord as [Hle Hord].
    apply Nat.leb_le in Hle.
    rewrite (call_in_order c ps reached Hne Hall Hle).
    + rewrite app_assoc. apply (IH _ (rank (category_of c))).
      * destruct ps; [now elim Hne | discriminate].
      * intros p Hp. apply in_app_or in Hp as [Hp|Hp].
        -- specialize (Hall p Hp). lia.
        -- rewrite (kind_parts_of_call c p Hp). lia.
      * exact Hord.
      * intros k Hk. specialize (Hlim k Hk). simpl map in Hlim.
        rewrite occurrences_cons in Hlim.
        rewrite names_of_app, length_app, (singleton_parts_of_call k c Hk). lia.
    + intros Hk. specialize (Hlim _ Hk). simpl map in Hlim.
      rewrite occurrences_cons in Hlim.
      apply length_nil.
      assert (occurrences (category_of c) [category_of c] = 1)
        by (unfold occurrences, category_eqb; simpl; now rewrite Nat.eqb_refl).
      lia.
Qed.

(** Every facade operation returns a fresh instance holding its one part. *)
Lemma create_accumulated p : create p = Normal (Instance (accumulated [p])).
Proof. destruct p as [k n]; destruct k; reflexivity. Qed.

(** On the accumulated fields, [stringify] is the specified concatenation. *)
Lemma stringify_accumulated ps :
  length (names_of CPseudoElement ps) <= 1 ->
  SimpleSelector.stringify (accumulated ps) = concatenation ps.
Proof.
  intros Hpe.
  unfold SimpleSelector.stringify, concatenation, accumulated, the_one, join; simpl.
  rewrite !append_if_r, !append_assoc. simpl.
  f_equal; [| f_equal; [| f_equal; [| f_equal; [| f_equal ]]]].
  - destruct (names_of CElement ps) as [|[|a n] ns]; reflexivity.
  - destruct (names_of CId ps) as [|[|a n] ns]; reflexivity.
  - destruct (names_of CClass ps); reflexivity.
  - destruct (names_of CAttribute ps) as [|[|a n] ns]; reflexivity.
  - destruct (names_of CPseudoClass ps); reflexivity.
  - destruct (names_of CPseudoElement ps) as [|n [|m ns]]; simpl in *;
      [reflexivity | reflexivity | lia].
Qed.

Lemma names_of_parts k ch :
  singleton k = true ->
  length (names_of k (parts ch)) = occurrences k (categories ch).
Proof.
  intros Hk. destruct ch as [p cs]. unfold parts, categories; simpl first; simpl rest.
  rewrite occurrences_cons.
  change (p :: flat_map parts_of_call cs) with ([p] ++ flat_map parts_of_call cs)%list.
  rewrite names_of_app, length_app. f_equal.
  - unfold names_of, occurrences. simpl. now destruct (category_eqb k (kind p)).
  - induction cs as [|c cs IH]; [reflexivity|]. simpl.
    rewrite names_of_app, length_app, occurrences_cons, IH.
    now rewrite (singleton_parts_of_call k c Hk).
Qed.

(** ** The two readings of "present" agree on non-empty names *)

Lemma rank_injective j k : rank j = rank k -> j = k.
Proof. destruct j, k; simpl; intros H; try reflexivity; discriminate H. Qed.

Lemma the_one_in k ps n :
  the_one k ps = Some n -> exists p, In p ps /\ kind p = k /\ name p = n.
Proof.
  unfold the_one, names_of.
  induction ps as [|p ps IH]; simpl; [discriminate|].
  unfold category_eqb at 1.
  destruct (Nat.eqb_spec (rank k) (rank (kind p))) as [E|_]; simpl.
  - intros H. injection H as <-. exists p. split; [now left|].
    split; [symmetry; now apply rank_injective | reflexivity].
  - intros H. destruct (IH H) as (q & Hq & Hk & Hn). exists q. auto.
Qed.

(** When no id and no attribute expression was given as the empty string,
    the rendering is the same whether "present" means "given" or "given and
    not empty". *)
Lemma concatenation_of_non_empty_names ps :
  (forall p, In p ps -> kind p = CId \/ kind p = CAttribute -> non_empty (name p) = true) ->
  concatenation ps = concatenation_of_given ps.
Proof.
  intros Hne. unfold concatenation, concatenation_of_given.
  assert (Hid : forall n, the_one CId ps = Some n -> non_empty n = true).
  { intros n H. destruct (the_one_in _ _ _ H) as (p & Hp & Hk & <-). apply Hne; auto. }
  assert (Hat : forall n, the_one CAttribute ps = Some n -> non_empty n = true).
  { intros n H. destruct (the_one_in _ _ _ H) as (p & Hp & Hk & <-). apply Hne; auto. }
  destruct (the_one CId ps) as [i|]; [rewrite (Hid i eq_refl)|];
    (destruct (the_one CAttribute ps) as [a|]; [rewrite (Hat a eq_refl)|]);
    reflexivity.
Qed.

(** [builder.id('').stringify()] is the empty string, where '#'+idName for
    the id that was given would be "#"; likewise [builder.attr('')] against
    "[]".  And were "present" to mean "not the empty string" throughout,
    [builder.pseudoElement('')] would render as the empty string, whereas it
    renders "::". *)
Lemma empty_name_is_not_rendered :
  respects_order (mkChain (mkPart CId "") []) = true
  /\ respects_singletons (mkChain (mkPart CId "") []) = true
  /\ run_stringify (mkChain (mkPart CId "") []) = Normal ""
  /\ concatenation_of_given (parts (mkChain (mkPart CId "") [])) = "#"
  /\ run_stringify (mkChain (mkPart CAttribute "") []) = Normal ""
  /\ concatenation_of_given (parts (mkChain (mkPart CAttribute "") [])) = "[]"
  /\ respects_order (mkChain (mkPart CPseudoElement "") []) = true
  /\ respects_singletons (mkChain (mkPart CPseudoElement "") []) = true
  /\ run_stringify (mkChain (mkPart CPseudoElement "") []) = Normal "::"
  /\ concatenation_of_non_empty (parts (mkChain (mkPart CPseudoElement "") [])) = "".
Proof. repeat split. Qed.

Lemma stringify_of_valid_chain (ch : chain) :
  respects_order ch = true ->
  respects_singletons ch = true ->
  run_stringify ch = Normal (concatenation (parts ch)).
Proof.
  intros Hord Hlim.
  assert (Hocc : forall k, singleton k = true -> occurrences k (categories ch) <= 1).
  { intros k Hk. unfold respects_singletons in Hlim. rewrite forallb_forall in Hlim.
    apply Nat.leb_le, Hlim. destruct k; simpl; try discriminate Hk; tauto. }
  unfold run_stringify, run. rewrite create_accumulated.
  unfold respects_order, categories in Hord. simpl in Hord.
  rewrite (continue_in_order (rest ch) [first ch] (rank (kind (first ch)))).
  - simpl. f_equal. apply stringify_accumulated.
    change (first ch :: flat_map parts_of_call (rest ch)) with (parts ch).
    rewrite names_of_parts by reflexivity. now apply Hocc.
  - discriminate.
  - intros p [<-|[]]. lia.
  - exact Hord.
  - intros k Hk. specialize (Hocc k Hk). unfold categories in Hocc.
    rewrite occurrences_cons in Hocc.
    unfold names_of, occurrences in *. simpl in *.
    destruct (category_eqb k (kind (first ch))); simpl in *; lia.
Qed.

(** C1 (amended). For every chain of calls that respects the category order
    and the singleton limits and gives no id and no attribute expression as
    the empty string, the chain goes through and [stringify()] returns
    exactly the concatenation elementName, '#'+idName, '.'+class names joined
    by '.', '['+attributeExpr+']', ':'+pseudo-class names joined by ':',
    '::'+pseudoElementName, each segment if it was given and with no other
    separators.  An id or an attribute expression given as the empty string
    emits nothing, the rest being as before.  And
    [builder.id('main').class('container').class('editable').stringify()]
    returns "#main.container.editable". *)
Theorem stringify_of_ordered_chain :
  (forall ch : chain,
     respects_order ch = true ->
     respects_singletons ch = true ->
     (forall p, In p (parts ch) ->
                kind p = CId \/ kind p = CAttribute -> non_empty (name p) = true) ->
     run_stringify ch = Normal (concatenation_of_given (parts ch)))
  /\ (forall ch : chain,
        respects_order ch = true ->
        respects_singletons ch = true ->
        run_stringify ch = Normal (concatenation (parts ch)))
  /\ run_stringify
       (mkChain (mkPart CId "main") [Class ["container"]; Class ["editable"]])
     = Normal "#main.container.editable".
Proof.
  split; [|split; [exact stringify_of_valid_chain | reflexivity]].
  intros ch Hord Hlim Hne.
  rewrite (stringify_of_valid_chain ch Hord Hlim).
  now rewrite (concatenation_of_non_empty_names (parts ch) Hne).
Qed.

Lemma stringify_of_ordered_chain_witness :
  respects_order (mkChain (mkPart CElement "a") [Attr "href"; PseudoClass ["focus"]]) = true
  /\ respects_singletons (mkChain (mkPart CElement "a") [Attr "href"; PseudoClass ["focus"]]) = true
  /\ (forall p, In p (parts (mkChain (mkPart CElement "a") [Attr "href"; PseudoClass ["focus"]])) ->
                kind p = CId \/ kind p = CAttribute -> non_empty (name p) = true)
  /\ run_stringify (mkChain (mkPart CElement "a") [Attr "href"; PseudoClass ["focus"]])
     = Normal "a[href]:focus".
Proof.
  assert (Hne : forall p,
             In p (parts (mkChain (mkPart CElement "a") [Attr "href"; PseudoClass ["focus"]])) ->
             kind p = CId \/ kind p = CAttribute -> non_empty (name p) = true).
  { intros p Hp _. simpl in Hp. destruct Hp as [<-|[<-|[<-|[]]]]; reflexivity. }
  split; [reflexivity | split; [reflexivity | split; [exact Hne|]]].
  exact (proj1 stringify_of_ordered_chain
           (mkChain (mkPart CElement "a") [Attr "href"; PseudoClass ["focus"]])
           eq_refl eq_refl Hne).
Defined.

(** ** What the add-part methods return *)

Lemma id_returns_this val this :
  snd (SimpleSelector.id val this) = Normal This
  \/ exists e, snd (SimpleSelector.id val this) = Throw e.
Proof.
  unfold_methods. simpl.
  destruct (has_length (classes this) || truthy (attribute this)
            || has_length (pseudoClassEl this) || has_length (pseudoElementEl this));
    simpl; [right; eauto|].
  destruct (truthy (elId this)); simpl; [right; eauto | now left].
Qed.

Lemma class_returns_this vals this :
  snd (SimpleSelector.class vals this) = Normal This
  \/ exists e, snd (SimpleSelector.class vals this) = Throw e.
Proof.
  unfold_methods. simpl.
  destruct (truthy (attribute this) || has_length (pseudoClassEl this)
            || has_length (pseudoElementEl this)); simpl; [right; eauto | now left].
Qed.

Lemma attr_returns_this value this :
  snd (SimpleSelector.attr value this) = Normal This
  \/ exists e, snd (SimpleSelector.attr value this) = Throw e.
Proof.
  unfold_methods. simpl.
  destruct (has_length (pseudoClassEl this) || has_length (pseudoElementEl this));
    simpl; [right; eauto | now left].
Qed.

Lemma pseudoClass_returns_this values this :
  snd (SimpleSelector.pseudoClass values this) = Normal This
  \/ exists e, snd (SimpleSelector.pseudoClass values this) = Throw e.
Proof.
  unfold_methods. simpl.
  destruct (has_length (pseudoElementEl this)); simpl; [right; eauto | now left].
Qed.

Lemma pseudoElement_returns_this value this :
  snd (SimpleSelector.pseudoElement value this) = Normal This
  \/ exists e, snd (SimpleSelector.pseudoElement value this) = Throw e.
Proof.
  unfold_methods. simpl.
  destruct (has_length (pseudoElementEl this)); simpl; [right; eauto | now left].
Qed.

(** All six creation operations of the facade return an instance. *)
Lemma create_returns_instance p : exists s, create p = Normal (Instance s).
Proof. rewrite create_accumulated. eauto. Qed.

(** C2. The claim asks that [element(name)] on a simple selector return the
    selector instance.  The code returns the raw name: whenever
    [SimpleSelector.element] completes normally its result is the string it
    was given, so [cssSelectorBuilder.element('').element('div')] is the
    string "div", and a further [.id('main')] on it is a TypeError. *)
Theorem element_returns_raw_name :
  (forall v this,
     snd (SimpleSelector.element v this) = Normal (Str v)
     \/ exists e, snd (SimpleSelector.element v this) = Throw e)
  /\ run (mkChain (mkPart CElement "") [Element "div"]) = Normal (StringValue "div")
  /\ run (mkChain (mkPart CElement "") [Element "div"; Id "main"]) = Throw TypeError.
Proof.
  split; [|split; reflexivity].
  intros v this. unfold_methods. simpl.
  destruct (truthy (elId this) || has_length (classes this) || truthy (attribute this)
            || has_length (pseudoClassEl this) || has_length (pseudoElementEl this));
    simpl; [right; eauto|].
  destruct (truthy (el this)); simpl; [right; eauto | now left].
Qed.

(** ** The three outcomes of each method

    Order check first, duplicate check second, the write last. *)

Ltac by_fields this :=
  unfold_methods; unfold populated_after, populated, OrderError, DuplicateError;
  destruct (truthy (el this)) eqn:E1, (truthy (elId this)) eqn:E2,
    (has_length (classes this)) eqn:E3, (truthy (attribute this)) eqn:E4,
    (has_length (pseudoClassEl this)) eqn:E5,
    (has_length (pseudoElementEl this)) eqn:E6;
  simpl; rewrite ?E1, ?E2, ?E3, ?E4, ?E5, ?E6; simpl;
  rewrite ?E1, ?E2, ?E3, ?E4, ?E5, ?E6; reflexivity.

Lemma element_outcome v this :
  SimpleSelector.element v this =
  if populated_after CElement this then (this, Throw OrderError)
  else if truthy (el this) then (this, Throw DuplicateError)
  else (set_el (Some v) this, Normal (Str v)).
Proof. by_fields this. Qed.

Lemma id_outcome val this :
  SimpleSelector.id val this =
  if populated_after CId this then (this, Throw OrderError)
  else if truthy (elId this) then (this, Throw DuplicateError)
  else (set_elId (Some val) this, Normal This).
Proof. by_fields this. Qed.

Lemma class_outcome vals this :
  SimpleSelector.class vals this =
  if populated_after CClass this then (this, Throw OrderError)
  else (push_classes vals this, Normal This).
Proof. by_fields this. Qed.

Lemma attr_outcome value this :
  SimpleSelector.attr value this =
  if populated_after CAttribute this then (this, Throw OrderError)
  else (set_attribute (Some value) this, Normal This).
Proof. by_fields this. Qed.

Lemma pseudoClass_outcome values this :
  SimpleSelector.pseudoClass values this =
  if populated_after CPseudoClass this then (this, Throw OrderError)
  else (push_pseudoClassEl values this, Normal This).
Proof. by_fields this. Qed.

Lemma pseudoElement_outcome value this :
  SimpleSelector.pseudoElement value this =
  if has_length (pseudoElementEl this) then (this, Throw DuplicateError)
  else (push_pseudoElementEl [value] this, Normal This).
Proof. by_fields this. Qed.

Lemma populated_after_last this : populated_after CPseudoElement this = false.
Proof.
  reflexivity.
Qed.

(** ** C3: a second attr *)

(** [cssSelectorBuilder.attr('href').attr('title')] goes through and the
    second expression replaces the first. *)
Lemma second_attr_is_accepted :
  truthy (attribute (set_attribute (Some "href") new_SimpleSelector)) = true
  /\ SimpleSelector.attr "title" (set_attribute (Some "href") new_SimpleSelector)
     = (set_attribute (Some "title") new_SimpleSelector, Normal This)
  /\ run_stringify (mkChain (mkPart CAttribute "href") [Attr "title"])
     = Normal "[title]".
Proof. repeat split. Qed.

(** C3 (amended). [attr(expr)] on a simple selector whose attribute
    expression is already set never fails with the duplicate error: it fails
    with the order error when a pseudo-class or a pseudo-element has been
    added, and otherwise completes and returns the instance. *)
Theorem attr_on_set_attribute (this : SimpleSelector) (value : string) :
  truthy (attribute this) = true ->
  snd (SimpleSelector.attr value this) <> Throw DuplicateError
  /\ (populated_after CAttribute this = true ->
      SimpleSelector.attr value this = (this, Throw OrderError))
  /\ (populated_after CAttribute this = false ->
      snd (SimpleSelector.attr value this) = Normal This).
Proof.
  intros _. rewrite attr_outcome.
  destruct (populated_after CAttribute this); simpl; repeat split;
    try discriminate; intros H; congruence.
Qed.

Lemma attr_on_set_attribute_witness :
  truthy (attribute (set_attribute (Some "href") new_SimpleSelector)) = true
  /\ snd (SimpleSelector.attr "title" (set_attribute (Some "href") new_SimpleSelector))
     = Normal This.
Proof.
  split; [reflexivity|].
  exact (proj2 (proj2 (attr_on_set_attribute
                         (set_attribute (Some "href") new_SimpleSelector) "title" eq_refl))
               eq_refl).
Defined.

(** ** C4: the order error *)

Lemma method_out_of_order c this :
  populated_after (category_of c) this = true ->
  method_of c this = (this, Throw OrderError).
Proof.
  intros H. destruct c as [v|v|vs|v|vs|v]; simpl in *.
  - now rewrite element_outcome, H.
  - now rewrite id_outcome, H.
  - now rewrite class_outcome, H.
  - now rewrite attr_outcome, H.
  - now rewrite pseudoClass_outcome, H.
  - now rewrite populated_after_last in H.
Qed.

(** C4. An add-part call whose category comes before a category already
    populated on the instance fails with the order error, whose message is
    exactly the quoted one; in particular [class()] after [attr()]. *)
Theorem earlier_category_is_order_error :
  (forall (c : call) (this : SimpleSelector),
     populated_after (category_of c) this = true ->
     method_of c this =
     (this, Throw (Error "Selector parts should be arranged in the following order: element, id, class, attribute, pseudo-class, pseudo-element")))
  /\ (forall (this this' : SimpleSelector) (value : string) (vals : list string),
        non_empty value = true ->
        SimpleSelector.attr value this = (this', Normal This) ->
        SimpleSelector.class vals this' =
        (this', Throw (Error "Selector parts should be arranged in the following order: element, id, class, attribute, pseudo-class, pseudo-element")))
  /\ run (mkChain (mkPart CElement "a") [Attr "href"; Class ["b"]])
     = Throw (Error "Selector parts should be arranged in the following order: element, id, class, attribute, pseudo-class, pseudo-element").
Proof.
  split; [exact method_out_of_order | split; [|reflexivity]].
  intros this this' value vals Hv Hattr.
  rewrite attr_outcome in Hattr.
  destruct (populated_after CAttribute this); [discriminate|].
  injection Hattr as <-.
  apply (method_out_of_order (Class vals)).
  unfold populated_after, populated; simpl.
  destruct value; [discriminate Hv | reflexivity].
Qed.

Lemma earlier_category_is_order_error_witness :
  populated_after (category_of (Id "main"))
                  (push_classes ["container"] new_SimpleSelector) = true
  /\ method_of (Id "main") (push_classes ["container"] new_SimpleSelector)
     = (push_classes ["container"] new_SimpleSelector, Throw OrderError).
Proof.
  split; [reflexivity|].
  exact (proj1 earlier_category_is_order_error (Id "main")
           (push_classes ["container"] new_SimpleSelector) eq_refl).
Defined.

(** ** C5: the duplicate error *)

(** [cssSelectorBuilder.id('a').id('b')] throws a message that is not the
    quoted one ("then", not "than"), and
    [cssSelectorBuilder.id('a').class('b').id('c')] throws the order error
    although the id is already set. *)
Lemma second_id_message :
  run (mkChain (mkPart CId "a") [Id "b"])
  = Throw (Error "Element, id and pseudo-element should not occur more then one time inside the selector")
  /\ run (mkChain (mkPart CId "a") [Id "b"]) <> Throw (Error QUOTED_DUPLICATE_MESSAGE)
  /\ run (mkChain (mkPart CId "a") [Class ["b"]; Id "c"]) = Throw OrderError
  /\ run (mkChain (mkPart CId "a") [Class ["b"]; Id "c"]) <> Throw DuplicateError.
Proof.
  repeat split; try reflexivity;
    intros H; vm_compute in H; discriminate H.
Qed.

(** C5 (amended). When no later category is populated, [id()] on an
    instance whose id is a non-empty string, and [element()] on one whose
    element name is a non-empty string, fail with the error whose message is
    exactly "Element, id and pseudo-element should not occur more then one
    time inside the selector"; [pseudoElement()] on an instance that has a
    pseudo-element always fails with it.  The instance is left as it was. *)
Theorem second_singleton_is_duplicate_error :
  (forall (this : SimpleSelector) (val : string),
     truthy (elId this) = true ->
     populated_after CId this = false ->
     SimpleSelector.id val this =
     (this, Throw (Error "Element, id and pseudo-element should not occur more then one time inside the selector")))
  /\ (forall (this : SimpleSelector) (v : string),
        truthy (el this) = true ->
        populated_after CElement this = false ->
        SimpleSelector.element v this =
        (this, Throw (Error "Element, id and pseudo-element should not occur more then one time inside the selector")))
  /\ (forall (this : SimpleSelector) (value : string),
        has_length (pseudoElementEl this) = true ->
        SimpleSelector.pseudoElement value this =
        (this, Throw (Error "Element, id and pseudo-element should not occur more then one time inside the selector"))).
Proof.
  repeat split.
  - intros this val Hset Hlater. now rewrite id_outcome, Hlater, Hset.
  - intros this v Hset Hlater. now rewrite element_outcome, Hlater, Hset.
  - intros this value Hset. now rewrite pseudoElement_outcome, Hset.
Qed.

Lemma second_singleton_is_duplicate_error_witness :
  truthy (elId (set_elId (Some "main") new_SimpleSelector)) = true
  /\ populated_after CId (set_elId (Some "main") new_SimpleSelector) = false
  /\ SimpleSelector.id "other" (set_elId (Some "main") new_SimpleSelector)
     = (set_elId (Some "main") new_SimpleSelector, Throw DuplicateError).
Proof.
  split; [reflexivity | split; [reflexivity|]].
  exact (proj1 second_singleton_is_duplicate_error
           (set_elId (Some "main") new_SimpleSelector) "other" eq_refl eq_refl).
Defined.

(** ** C6: combined selectors *)

(** C6. [combine(a, c, b).stringify()] is [a.stringify() + ' ' + c + ' ' +
    b.stringify()] for all selectors [a], [b] and every string [c]; a space
    combinator nested in another combine gives three spaces in a row. *)
Theorem combine_stringify :
  (forall (a b : selector) (c : string),
     stringify (cssSelectorBuilder.combine a c b)
     = stringify a ++ " " ++ c ++ " " ++ stringify b)
  /\ (forall x y z : selector,
        stringify (cssSelectorBuilder.combine x "~" (cssSelectorBuilder.combine y " " z))
        = stringify x ++ " ~ " ++ stringify y ++ "   " ++ stringify z).
Proof. split; reflexivity. Qed.

(** ** C9: a throwing call changes nothing *)

Lemma method_throws c this e :
  snd (method_of c this) = Throw e ->
  fst (method_of c this) = this /\ (e = OrderError \/ e = DuplicateError).
Proof.
  destruct c as [v|v|vs|v|vs|v]; simpl method_of;
    [ rewrite element_outcome | rewrite id_outcome | rewrite class_outcome
    | rewrite attr_outcome | rewrite pseudoClass_outcome
    | rewrite pseudoElement_outcome ];
    repeat match goal with
           | |- context [if ?b then _ else _] => destruct b
           end; simpl; intros H; inversion H; auto.
Qed.

(** C9. Whenever an add-part call throws, the error is the order error or
    the duplicate error and no field of the instance has been modified, so
    [stringify()] gives what it gave before the call. *)
Theorem add_part_is_atomic (c : call) (this : SimpleSelector) (e : JSError) :
  snd (method_of c this) = Throw e ->
  (e = OrderError \/ e = DuplicateError)
  /\ fst (method_of c this) = this
  /\ SimpleSelector.stringify (fst (method_of c this)) = SimpleSelector.stringify this.
Proof.
  intros H. destruct (method_throws c this e H) as [Hst He].
  repeat split; [exact He | exact Hst | now rewrite Hst].
Qed.

Lemma add_part_is_atomic_witness :
  fst (method_of (Class ["late"]) (set_attribute (Some "href") new_SimpleSelector))
  = set_attribute (Some "href") new_SimpleSelector.
Proof.
  exact (proj1 (proj2 (add_part_is_atomic (Class ["late"])
                         (set_attribute (Some "href") new_SimpleSelector)
                         OrderError eq_refl))).
Defined.

(** ** C10: the empty string as a name *)

Lemma stringify_null_el this :
  truthy (el this) = false ->
  SimpleSelector.stringify this = SimpleSelector.stringify (set_el None this).
Proof. intros H. unfold SimpleSelector.stringify. simpl. now rewrite H. Qed.

Lemma stringify_null_elId this :
  truthy (elId this) = false ->
  SimpleSelector.stringify this = SimpleSelector.stringify (set_elId None this).
Proof. intros H. unfold SimpleSelector.stringify. simpl. now rewrite H. Qed.

Lemma stringify_null_attribute this :
  truthy (attribute this) = false ->
  SimpleSelector.stringify this = SimpleSelector.stringify (set_attribute None this).
Proof. intros H. unfold SimpleSelector.stringify. simpl. now rewrite H. Qed.

Lemma after_empty_id this this' r :
  SimpleSelector.id "" this = (this', Normal r) ->
  SimpleSelector.stringify this' = SimpleSelector.stringify (set_elId None this')
  /\ forall val, SimpleSelector.id val this' = (set_elId (Some val) this', Normal This).
Proof.
  intros H. rewrite id_outcome in H.
  destruct (populated_after CId this) eqn:Hafter; [discriminate|].
  destruct (truthy (elId this)); [discriminate|].
  injection H as <- _. split; [now apply stringify_null_elId|].
  intros val. rewrite id_outcome.
  change (populated_after CId (set_elId (Some "") this))
    with (populated_after CId this).
  now rewrite Hafter.
Qed.

Lemma after_empty_element this this' r :
  SimpleSelector.element "" this = (this', Normal r) ->
  SimpleSelector.stringify this' = SimpleSelector.stringify (set_el None this')
  /\ forall v, SimpleSelector.element v this' = (set_el (Some v) this', Normal (Str v)).
Proof.
  intros H. rewrite element_outcome in H.
  destruct (populated_after CElement this) eqn:Hafter; [discriminate|].
  destruct (truthy (el this)); [discriminate|].
  injection H as <- _. split; [now apply stringify_null_el|].
  intros v. rewrite element_outcome.
  change (populated_after CElement (set_el (Some "") this))
    with (populated_after CElement this).
  now rewrite Hafter.
Qed.

Lemma after_empty_attr this this' r :
  SimpleSelector.attr "" this = (this', Normal r) ->
  SimpleSelector.stringify this' = SimpleSelector.stringify (set_attribute None this')
  /\ forall value,
       SimpleSelector.attr value this' = (set_attribute (Some value) this', Normal This).
Proof.
  intros H. rewrite attr_outcome in H.
  destruct (populated_after CAttribute this) eqn:Hafter; [discriminate|].
  injection H as <- _. split; [now apply stringify_null_attribute|].
  intros value. rewrite attr_outcome.
  change (populated_after CAttribute (set_attribute (Some "") this))
    with (populated_after CAttribute this).
  now rewrite Hafter.
Qed.

(** C10. After [id('')], [element('')] or [attr('')] the instance renders
    as if the field were [null] (no '#', no brackets, no name), and the
    same call made again goes through: there is no duplicate error, because
    the tests are on the truthiness of the stored string. *)
Theorem empty_name_counts_as_absent :
  (forall this this' r,
     SimpleSelector.id "" this = (this', Normal r) ->
     SimpleSelector.stringify this' = SimpleSelector.stringify (set_elId None this')
     /\ forall val, SimpleSelector.id val this' = (set_elId (Some val) this', Normal This))
  /\ (forall this this' r,
        SimpleSelector.element "" this = (this', Normal r) ->
        SimpleSelector.stringify this' = SimpleSelector.stringify (set_el None this')
        /\ forall v, SimpleSelector.element v this' = (set_el (Some v) this', Normal (Str v)))
  /\ (forall this this' r,
        SimpleSelector.attr "" this = (this', Normal r) ->
        SimpleSelector.stringify this' = SimpleSelector.stringify (set_attribute None this')
        /\ forall value,
             SimpleSelector.attr value this' = (set_attribute (Some value) this', Normal This))
  /\ (forall this val,
        truthy (elId this) = false ->
        snd (SimpleSelector.id val this) <> Throw DuplicateError)
  /\ (forall this v,
        truthy (el this) = false ->
        snd (SimpleSelector.element v this) <> Throw DuplicateError)
  /\ (forall this value,
        snd (SimpleSelector.attr value this) <> Throw DuplicateError)
  /\ run_stringify (mkChain (mkPart CId "") []) = Normal ""
  /\ run_stringify (mkChain (mkPart CElement "") []) = Normal ""
  /\ run_stringify (mkChain (mkPart CAttribute "") []) = Normal ""
  /\ run_stringify (mkChain (mkPart CId "") [Id "main"]) = Normal "#main"
  /\ (forall v, run (mkChain (mkPart CElement "") [Element v]) = Normal (StringValue v))
  /\ run_stringify (mkChain (mkPart CAttribute "") [Attr "href"]) = Normal "[href]".
Proof.
  split; [exact after_empty_id|].
  split; [exact after_empty_element|].
  split; [exact after_empty_attr|].
  split.
  { intros this val H. rewrite id_outcome, H.
    destruct (populated_after CId this); simpl; discriminate. }
  split.
  { intros this v H. rewrite element_outcome, H.
    destruct (populated_after CElement this); simpl; discriminate. }
  split.
  { intros this value. rewrite attr_outcome.
    destruct (populated_after CAttribute this); simpl; discriminate. }
  repeat split.
Qed.

Lemma empty_name_counts_as_absent_witness :
  SimpleSelector.id "" new_SimpleSelector = (set_elId (Some "") new_SimpleSelector, Normal This)
  /\ SimpleSelector.stringify (set_elId (Some "") new_SimpleSelector)
     = SimpleSelector.stringify (set_elId None (set_elId (Some "") new_SimpleSelector)).
Proof.
  split; [reflexivity|].
  exact (proj1 (proj1 empty_name_counts_as_absent
                  new_SimpleSelector (set_elId (Some "") new_SimpleSelector) This eq_refl)).
Defined.

(** The pseudo-element is stored in an array and tested by its length, so
    there the empty string is a name like any other. *)
Lemma empty_pseudoElement_is_present :
  run_stringify (mkChain (mkPart CPseudoElement "") []) = Normal "::"
  /\ run (mkChain (mkPart CPseudoElement "") [PseudoElement "after"]) = Throw DuplicateError.
Proof. split; reflexivity. Qed.

(** * Further properties of the css selector builder *)

Lemma left_by_app ps qs :
  left_by (ps ++ qs)%list =
  {| el := hd_error (names_of CElement ps ++ names_of CElement qs)%list;
     elId := hd_error (rev (names_of CId qs) ++ rev (names_of CId ps))%list;
     classes := (names_of CClass ps ++ names_of CClass qs)%list;
     attribute := hd_error (rev (names_of CAttribute qs) ++ rev (names_of CAttribute ps))%list;
     pseudoClassEl := (names_of CPseudoClass ps ++ names_of CPseudoClass qs)%list;
     pseudoElementEl := (names_of CPseudoElement ps ++ names_of CPseudoElement qs)%list |}.
Proof. unfold left_by, the_one, last_one. now rewrite !names_of_app, !rev_app_distr. Qed.

Lemma continue_throw e cs : continue (Throw e) cs = Throw e.
Proof. destruct cs; reflexivity. Qed.

Lemma continue_string v cs :
  continue (Normal (StringValue v)) cs = Normal (StringValue v)
  \/ continue (Normal (StringValue v)) cs = Throw TypeError.
Proof.
  destruct cs as [|c cs]; [now left|]. right. simpl. apply continue_throw.
Qed.

(** A call that returns an instance leaves the fields of the parts so far
    plus its own. *)
Lemma call_left_by c ps s :
  call_method (Instance (left_by ps)) (method_of c) = Normal (Instance s) ->
  s = left_by (ps ++ parts_of_call c)%list.
Proof.
  intros H. rewrite left_by_app. unfold call_method in H.
  destruct c as [v|v|vs|v|vs|v]; simpl method_of in H; simpl parts_of_call.
  - rewrite element_outcome in H.
    destruct (populated_after CElement (left_by ps)); [discriminate|].
    destruct (truthy (el (left_by ps))); discriminate.
  - rewrite id_outcome in H.
    destruct (populated_after CId (left_by ps)); [discriminate|].
    destruct (truthy (elId (left_by ps))); [discriminate|].
    injection H as <-. unfold set_elId, left_by, the_one; simpl.
    now rewrite !app_nil_r.
  - rewrite class_outcome in H.
    destruct (populated_after CClass (left_by ps)); [discriminate|].
    injection H as <-. unfold push_classes, left_by, the_one, last_one; simpl.
    rewrite names_of_same, !names_of_other by (simpl; lia). simpl.
    now rewrite !app_nil_r.
  - rewrite attr_outcome in H.
    destruct (populated_after CAttribute (left_by ps)); [discriminate|].
    injection H as <-. unfold set_attribute, left_by, the_one; simpl.
    now rewrite !app_nil_r.
  - rewrite pseudoClass_outcome in H.
    destruct (populated_after CPseudoClass (left_by ps)); [discriminate|].
    injection H as <-. unfold push_pseudoClassEl, left_by, the_one, last_one; simpl.
    rewrite names_of_same, !names_of_other by (simpl; lia). simpl.
    now rewrite !app_nil_r.
  - rewrite pseudoElement_outcome in H.
    destruct (has_length (pseudoElementEl (left_by ps))); [discriminate|].
    injection H as <-. unfold push_pseudoElementEl, left_by, the_one; simpl.
    now rewrite !app_nil_r.
Qed.

Lemma call_keeps_one_pseudoElement c ps s :
  length (names_of CPseudoElement ps) <= 1 ->
  call_method (Instance (left_by ps)) (method_of c) = Normal (Instance s) ->
  length (names_of CPseudoElement (ps ++ parts_of_call c)%list) <= 1.
Proof.
  intros Hone H. rewrite names_of_app, length_app.
  destruct c as [v|v|vs|v|vs|v];
    try (rewrite names_of_parts_of_call by (simpl; lia); simpl; lia).
  unfold call_method in H. simpl method_of in H.
  rewrite pseudoElement_outcome in H. unfold left_by in H; simpl in H.
  destruct (names_of CPseudoElement ps); [simpl; lia | discriminate].
Qed.

Lemma continue_left_by cs : forall ps s,
  length (names_of CPseudoElement ps) <= 1 ->
  continue (Normal (Instance (left_by ps))) cs = Normal (Instance s) ->
  s = left_by (ps ++ flat_map parts_of_call cs)%list
  /\ length (names_of CPseudoElement (ps ++ flat_map parts_of_call cs)%list) <= 1.
Proof.
  induction cs as [|c cs IH]; intros ps s Hone H; cbn [continue flat_map] in *.
  - rewrite app_nil_r. injection H as <-. now split.
  - destruct (call_method (Instance (left_by ps)) (method_of c)) as [[s1|v]|e] eqn:E.
    + pose proof (call_keeps_one_pseudoElement c ps s1 Hone E) as Hone'.
      apply call_left_by in E. subst s1.
      rewrite app_assoc. now apply IH.
    + destruct (continue_string v cs) as [K|K]; rewrite K in H; discriminate.
    + rewrite continue_throw in H. discriminate.
Qed.

Lemma create_left_by p : create p = Normal (Instance (left_by [p])).
Proof. destruct p as [k n]; destruct k; reflexivity. Qed.

Lemma stringify_left_by ps :
  length (names_of CPseudoElement ps) <= 1 ->
  SimpleSelector.stringify (left_by ps) = rendering ps.
Proof.
  intros Hpe.
  unfold SimpleSelector.stringify, rendering, left_by, the_one, last_one, join; simpl.
  rewrite !append_if_r, !append_assoc. simpl.
  f_equal; [| f_equal; [| f_equal; [| f_equal; [| f_equal ]]]].
  - destruct (names_of CElement ps) as [|[|a n] ns]; reflexivity.
  - destruct (rev (names_of CId ps)) as [|[|a n] ns]; reflexivity.
  - destruct (names_of CClass ps); reflexivity.
  - destruct (rev (names_of CAttribute ps)) as [|[|a n] ns]; reflexivity.
  - destruct (names_of CPseudoClass ps); reflexivity.
  - destruct (names_of CPseudoElement ps) as [|n [|m ns]]; simpl in *;
      [reflexivity | reflexivity | lia].
Qed.

Lemma one_pseudoElement_at_first p : length (names_of CPseudoElement [p]) <= 1.
Proof.
  unfold names_of. simpl. destruct (category_eqb CPseudoElement (kind p)); simpl; lia.
Qed.

(** X1. Whenever a chain goes through, whatever names it was given and
    whatever it repeats, the instance holds exactly the parts asked for and
    [stringify()] renders them in the fixed category order: the element name,
    the last id, the classes, the last attribute expression, the
    pseudo-classes, the pseudo-element. *)
Theorem accepted_chain_rendering (ch : chain) (s : SimpleSelector) :
  run ch = Normal (Instance s) ->
  s = left_by (parts ch)
  /\ run_stringify ch = Normal (rendering (parts ch)).
Proof.
  intros H. unfold run_stringify. rewrite H. unfold run in H.
  rewrite create_left_by in H.
  apply continue_left_by in H; [|apply one_pseudoElement_at_first].
  destruct H as [-> Hone]. split; [reflexivity|].
  simpl. f_equal. now apply stringify_left_by.
Qed.

Lemma accepted_chain_rendering_witness :
  run (mkChain (mkPart CId "") [Id "main"; Attr "href"; Attr "title"])
  = Normal (Instance (left_by [mkPart CId ""; mkPart CId "main";
                                mkPart CAttribute "href"; mkPart CAttribute "title"]))
  /\ run_stringify (mkChain (mkPart CId "") [Id "main"; Attr "href"; Attr "title"])
     = Normal "#main[title]".
Proof.
  split; [reflexivity|].
  exact (proj2 (accepted_chain_rendering
                  (mkChain (mkPart CId "") [Id "main"; Attr "href"; Attr "title"])
                  _ eq_refl)).
Defined.

(** ** Which chains go through *)

Lemma populated_after_false k s :
  (forall j, rank k < rank j -> populated j s = false) ->
  populated_after k s = false.
Proof.
  intros H. unfold populated_after.
  destruct (existsb _ all_categories) eqn:E; [|reflexivity].
  apply existsb_exists in E as (j & _ & Hj).
  apply andb_true_iff in Hj as [Hlt Hp]. apply Nat.ltb_lt in Hlt.
  rewrite (H j Hlt) in Hp. discriminate.
Qed.

Lemma populated_after_true k j s :
  rank k < rank j -> populated j s = true -> populated_after k s = true.
Proof.
  intros Hlt Hp. unfold populated_after. apply existsb_exists. exists j. split.
  - unfold all_categories. destruct j; simpl; tauto.
  - apply andb_true_iff. split; [now apply Nat.ltb_lt | exact Hp].
Qed.

Lemma populated_none k ps : names_of k ps = [] -> populated k (left_by ps) = false.
Proof.
  intros H. destruct k; unfold populated, left_by, the_one, last_one; simpl;
    rewrite H; reflexivity.
Qed.

Lemma names_of_in k ps n :
  In n (names_of k ps) -> exists p, In p ps /\ kind p = k /\ name p = n.
Proof.
  unfold names_of. rewrite in_map_iff. intros (p & Hn & Hp).
  apply filter_In in Hp as [Hin Hk]. exists p. repeat split; try assumption.
  unfold category_eqb in Hk. apply Nat.eqb_eq in Hk. symmetry. now apply rank_injective.
Qed.

Lemma truthy_named ps n l :
  all_named ps -> (forall m, In m (n :: l) -> exists p, In p ps /\ name p = m) ->
  truthy (Some n) = true.
Proof.
  intros Hnamed Hin. destruct (Hin n (or_introl eq_refl)) as (p & Hp & <-).
  specialize (Hnamed p Hp). destruct (name p); [discriminate | reflexivity].
Qed.

Lemma populated_some k ps :
  all_named ps -> names_of k ps <> [] -> populated k (left_by ps) = true.
Proof.
  intros Hnamed Hne.
  assert (Hin : forall m, In m (names_of k ps) -> exists p, In p ps /\ name p = m).
  { intros m Hm. destruct (names_of_in k ps m Hm) as (p & Hp & _ & Hn). eauto. }
  assert (Hrev : rev (names_of k ps) <> []).
  { intros E. apply Hne. rewrite <- (rev_involutive (names_of k ps)), E. reflexivity. }
  assert (Hin' : forall m, In m (rev (names_of k ps)) -> exists p, In p ps /\ name p = m).
  { intros m Hm. apply Hin. now apply in_rev. }
  destruct k; unfold populated, left_by, the_one, last_one; simpl.
  - destruct (names_of CElement ps) as [|n l]; [now elim Hne|].
    exact (truthy_named ps n l Hnamed Hin).
  - destruct (rev (names_of CId ps)) as [|n l]; [now elim Hrev|].
    exact (truthy_named ps n l Hnamed Hin').
  - destruct (names_of CClass ps); [now elim Hne | reflexivity].
  - destruct (rev (names_of CAttribute ps)) as [|n l]; [now elim Hrev|].
    exact (truthy_named ps n l Hnamed Hin').
  - destruct (names_of CPseudoClass ps); [now elim Hne | reflexivity].
  - destruct (names_of CPseudoElement ps); [now elim Hne | reflexivity].
Qed.

Lemma names_of_member k ps p : In p ps -> kind p = k -> names_of k ps <> [].
Proof.
  intros Hp Hk E.
  assert (Hin : In (name p) (names_of k ps)).
  { unfold names_of. apply in_map. apply filter_In. split; [exact Hp|].
    subst k. unfold category_eqb. apply Nat.eqb_refl. }
  rewrite E in Hin. exact Hin.
Qed.

Lemma limited_singleton k : limited k = true -> singleton k = true.
Proof. destruct k; simpl; congruence. Qed.

(** What a call that returns an instance found on the instance. *)
Lemma call_success c s s1 :
  call_method (Instance s) (method_of c) = Normal (Instance s1) ->
  populated_after (category_of c) s = false
  /\ (limited (category_of c) = true -> populated (category_of c) s = false).
Proof.
  unfold call_method. destruct c as [v|v|vs|v|vs|v]; simpl method_of; simpl category_of.
  - rewrite element_outcome. destruct (populated_after CElement s); [discriminate|].
    destruct (truthy (el s)); discriminate.
  - rewrite id_outcome. destruct (populated_after CId s); [discriminate|].
    simpl. destruct (truthy (elId s)); [discriminate|]. auto.
  - rewrite class_outcome. destruct (populated_after CClass s); [discriminate|].
    simpl. split; [reflexivity | discriminate].
  - rewrite attr_outcome. destruct (populated_after CAttribute s); [discriminate|].
    simpl. split; [reflexivity | discriminate].
  - rewrite pseudoClass_outcome. destruct (populated_after CPseudoClass s); [discriminate|].
    simpl. split; [reflexivity | discriminate].
  - rewrite pseudoElement_outcome. rewrite populated_after_last. simpl.
    destruct (has_length (pseudoElementEl s)); [discriminate|]. auto.
Qed.

(** A call in order, not repeating a limited category, returns an instance. *)
Lemma call_accepted c ps reached :
  ps <> [] ->
  (forall p, In p ps -> rank (kind p) <= reached) ->
  reached <= rank (category_of c) ->
  (limited (category_of c) = true -> names_of (category_of c) ps = []) ->
  exists s, call_method (Instance (left_by ps)) (method_of c) = Normal (Instance s).
Proof.
  intros Hne Hall Hle Hlim.
  assert (Hafter : populated_after (category_of c) (left_by ps) = false).
  { apply populated_after_false. intros j Hj. apply populated_none.
    apply names_of_above with (reached := rank (category_of c)); [|exact Hj].
    intros p Hp. specialize (Hall p Hp). lia. }
  unfold call_method.
  destruct c as [v|v|vs|v|vs|v]; simpl method_of; simpl category_of in *.
  - exfalso. destruct ps as [|p ps]; [now apply Hne|].
    assert (Hp : rank (kind p) <= reached) by (apply Hall; now left).
    apply (names_of_member CElement (p :: ps) p); [now left | | now apply Hlim].
    apply rank_injective. simpl in *. lia.
  - rewrite id_outcome, Hafter.
    change (truthy (elId (left_by ps))) with (populated CId (left_by ps)).
    rewrite (populated_none CId ps (Hlim eq_refl)). eauto.
  - rewrite class_outcome, Hafter. eauto.
  - rewrite attr_outcome, Hafter. eauto.
  - rewrite pseudoClass_outcome, Hafter. eauto.
  - rewrite pseudoElement_outcome.
    change (has_length (pseudoElementEl (left_by ps)))
      with (populated CPseudoElement (left_by ps)).
    rewrite (populated_none CPseudoElement ps (Hlim eq_refl)). eauto.
Qed.

Lemma continue_accepted cs : forall ps reached,
  ps <> [] ->
  (forall p, In p ps -> rank (kind p) <= reached) ->
  in_order reached (map category_of cs) = true ->
  (forall k, limited k = true ->
     length (names_of k ps) + occurrences k (map category_of cs) <= 1) ->
  exists s, continue (Normal (Instance (left_by ps))) cs = Normal (Instance s).
Proof.
  induction cs as [|c cs IH]; intros ps reached Hne Hall Hord Hlim;
    cbn [continue flat_map].
  - eauto.
  - simpl in Hord. apply andb_true_iff in Hord as [Hle Hord].
    apply Nat.leb_le in Hle.
    destruct (call_accepted c ps reached Hne Hall Hle) as [s1 E].
    + intros Hk. specialize (Hlim _ Hk). simpl map in Hlim.
      rewrite occurrences_cons in Hlim. apply length_nil.
      assert (occurrences (category_of c) [category_of c] = 1)
        by (unfold occurrences, category_eqb; simpl; now rewrite Nat.eqb_refl).
      lia.
    + rewrite E. apply call_left_by in E. subst s1.
      apply (IH _ (rank (category_of c))).
      * destruct ps; [now elim Hne | discriminate].
      * intros p Hp. apply in_app_or in Hp as [Hp|Hp].
        -- specialize (Hall p Hp). lia.
        -- rewrite (kind_parts_of_call c p Hp). lia.
      * exact Hord.
      * intros k Hk. specialize (Hlim k Hk). simpl map in Hlim.
        rewrite occurrences_cons in Hlim.
        rewrite names_of_app, length_app,
          (singleton_parts_of_call k c (limited_singleton k Hk)). lia.
Qed.

Lemma parts_of_named_call c :
  names_something c = true ->
  all_named (parts_of_call c)
  /\ exists p, In p (parts_of_call c) /\ kind p = category_of c.
Proof.
  intros H. destruct c as [v|v|vs|v|vs|v]; simpl in *;
    try (split; [intros p [<-|[]]; exact H | eexists; split; [now left | reflexivity]]).
  - apply andb_true_iff in H as [Hlen Hall]. rewrite forallb_forall in Hall. split.
    + intros p Hp. apply in_map_iff in Hp as (n & <- & Hn). now apply Hall.
    + destruct vs as [|n vs]; [discriminate|]. eexists. split; [now left | reflexivity].
  - apply andb_true_iff in H as [Hlen Hall]. rewrite forallb_forall in Hall. split.
    + intros p Hp. apply in_map_iff in Hp as (n & <- & Hn). now apply Hall.
    + destruct vs as [|n vs]; [discriminate|]. eexists. split; [now left | reflexivity].
Qed.

Lemma all_named_app ps qs : all_named ps -> all_named qs -> all_named (ps ++ qs)%list.
Proof. intros Hp Hq p Hin. apply in_app_or in Hin as [H|H]; auto. Qed.

(** With names that are never empty, a chain that goes through was in order
    and repeated no limited category. *)
Lemma continue_was_valid cs : forall ps reached s,
  all_named ps ->
  (exists p, In p ps /\ rank (kind p) = reached) ->
  (forall k, limited k = true -> length (names_of k ps) <= 1) ->
  forallb names_something cs = true ->
  continue (Normal (Instance (left_by ps))) cs = Normal (Instance s) ->
  in_order reached (map category_of cs) = true
  /\ (forall k, limited k = true ->
        length (names_of k ps) + occurrences k (map category_of cs) <= 1).
Proof.
  induction cs as [|c cs IH]; intros ps reached s Hnamed Hreach Hone Hcs H;
    cbn [continue] in H.
  - split; [reflexivity|]. intros k Hk. specialize (Hone k Hk).
    unfold occurrences; simpl. lia.
  - simpl in Hcs. apply andb_true_iff in Hcs as [Hc Hcs].
    destruct (parts_of_named_call c Hc) as [Hcnamed (q & Hq & Hqk)].
    destruct (call_method (Instance (left_by ps)) (method_of c)) as [[s1|v]|e] eqn:E.
    + destruct (call_success c _ _ E) as [Hafter Hdup].
      apply call_left_by in E. subst s1.
      assert (Hle : reached <= rank (category_of c)).
      { destruct Hreach as (p & Hp & <-).
        destruct (Nat.le_gt_cases (rank (kind p)) (rank (category_of c))) as [L|G];
          [exact L|].
        rewrite (populated_after_true (category_of c) (kind p)) in Hafter;
          [discriminate | exact G |].
        apply populated_some; [exact Hnamed|].
        now apply (names_of_member (kind p) ps p). }
      assert (Hfresh : limited (category_of c) = true ->
                       names_of (category_of c) ps = []).
      { intros Hk. specialize (Hdup Hk).
        destruct (names_of (category_of c) ps) as [|n l] eqn:En; [reflexivity|].
        rewrite populated_some in Hdup; [discriminate | exact Hnamed |].
        rewrite En. discriminate. }
      assert (Hcount : forall k, limited k = true ->
                length (names_of k (ps ++ parts_of_call c)%list)
                = length (names_of k ps) + occurrences k [category_of c]).
      { intros k Hk. rewrite names_of_app, length_app.
        now rewrite (singleton_parts_of_call k c (limited_singleton k Hk)). }
      destruct (IH (ps ++ parts_of_call c)%list (rank (category_of c)) s) as [Hord Hlim].
      * now apply all_named_app.
      * exists q. split; [apply in_or_app; now right | now rewrite Hqk].
      * intros k Hk. rewrite (Hcount k Hk). specialize (Hone k Hk).
        unfold occurrences, category_eqb; simpl.
        destruct (Nat.eqb_spec (rank k) (rank (category_of c))) as [Ek|_];
          simpl; [|lia].
        apply rank_injective in Ek. subst k. rewrite (Hfresh Hk). simpl. lia.
      * exact Hcs.
      * exact H.
      * split.
        -- simpl. apply andb_true_iff. split; [now apply Nat.leb_le | exact Hord].
        -- intros k Hk. specialize (Hlim k Hk). rewrite (Hcount k Hk) in Hlim.
           simpl map. rewrite occurrences_cons. lia.
    + destruct (continue_string v cs) as [K|K]; rewrite K in H; discriminate.
    + rewrite continue_throw in H. discriminate.
Qed.

Lemma well_named_parts ch :
  well_named ch = true ->
  non_empty (name (first ch)) = true /\ forallb names_something (rest ch) = true.
Proof. unfold well_named. intros H. now apply andb_true_iff in H. Qed.

Lemma limits_of_occurrences ch :
  respects_limits ch = true <->
  (forall k, limited k = true -> occurrences k (categories ch) <= 1).
Proof.
  unfold respects_limits. rewrite forallb_forall. split.
  - intros H k Hk. apply Nat.leb_le, H. destruct k; simpl; try discriminate Hk; tauto.
  - intros H k Hin. apply Nat.leb_le, H.
    simpl in Hin. destruct Hin as [<-|[<-|[<-|[]]]]; reflexivity.
Qed.

Lemma names_of_first k p :
  length (names_of k [p]) = occurrences k [kind p].
Proof.
  unfold names_of, occurrences. simpl. now destruct (category_eqb k (kind p)).
Qed.

(** X2. A chain whose calls all name something (no empty name, no empty
    argument list) goes through exactly when its calls never go back in the
    category order and element, id and pseudo-element are each called at
    most once. *)
Theorem accepted_chains (ch : chain) :
  well_named ch = true ->
  ((exists s, run ch = Normal (Instance s))
   <-> respects_order ch = true /\ respects_limits ch = true).
Proof.
  intros Hwn. destruct (well_named_parts ch Hwn) as [Hfirst Hrest].
  unfold run. rewrite create_left_by.
  unfold respects_order, categories. rewrite limits_of_occurrences.
  unfold categories. simpl in_order. split.
  - intros [s H].
    destruct (continue_was_valid (rest ch) [first ch] (rank (kind (first ch))) s)
      as [Hord Hlim]; try assumption.
    + intros p [<-|[]]. exact Hfirst.
    + exists (first ch). split; [now left | reflexivity].
    + intros k Hk. rewrite names_of_first. unfold occurrences; simpl.
      destruct (category_eqb k (kind (first ch))); simpl; lia.
    + split; [exact Hord|].
      intros k Hk. specialize (Hlim k Hk). rewrite names_of_first in Hlim.
      rewrite occurrences_cons. exact Hlim.
  - intros [Hord Hlim].
    apply (continue_accepted (rest ch) [first ch] (rank (kind (first ch)))).
    + discriminate.
    + intros p [<-|[]]. lia.
    + exact Hord.
    + intros k Hk. specialize (Hlim k Hk). rewrite occurrences_cons in Hlim.
      now rewrite names_of_first.
Qed.

Lemma accepted_chains_witness :
  well_named (mkChain (mkPart CElement "a") [Attr "href"; Attr "title"; PseudoClass ["focus"]])
  = true
  /\ exists s,
       run (mkChain (mkPart CElement "a") [Attr "href"; Attr "title"; PseudoClass ["focus"]])
       = Normal (Instance s).
Proof.
  split; [reflexivity|].
  exact (proj2 (accepted_chains
                  (mkChain (mkPart CElement "a")
                           [Attr "href"; Attr "title"; PseudoClass ["focus"]])
                  eq_refl)
               (conj eq_refl eq_refl)).
Defined.

(** The four ways a call on an instance can end. *)
Lemma call_outcomes c s :
  (exists s1, call_method (Instance s) (method_of c) = Normal (Instance s1))
  \/ call_method (Instance s) (method_of c) = Throw OrderError
  \/ call_method (Instance s) (method_of c) = Throw DuplicateError
  \/ (exists v, call_method (Instance s) (method_of c) = Normal (StringValue v)
                /\ populated_after CElement s = false
                /\ populated CElement s = false).
Proof.
  unfold call_method. destruct c as [v|v|vs|v|vs|v]; simpl method_of.
  - rewrite element_outcome. destruct (populated_after CElement s); [auto|].
    simpl. destruct (truthy (el s)); [auto|]. right. right. right. eauto.
  - rewrite id_outcome. destruct (populated_after CId s); [auto|].
    destruct (truthy (elId s)); [auto|]. left. eauto.
  - rewrite class_outcome. destruct (populated_after CClass s); [auto|]. left. eauto.
  - rewrite attr_outcome. destruct (populated_after CAttribute s); [auto|]. left. eauto.
  - rewrite pseudoClass_outcome. destruct (populated_after CPseudoClass s); [auto|].
    left. eauto.
  - rewrite pseudoElement_outcome. destruct (has_length (pseudoElementEl s)); [auto|].
    left. eauto.
Qed.

Lemma named_is_populated ps :
  ps <> [] -> all_named ps ->
  populated_after CElement (left_by ps) = true \/ populated CElement (left_by ps) = true.
Proof.
  intros Hne Hnamed. destruct ps as [|p ps]; [now elim Hne|].
  assert (Hp : populated (kind p) (left_by (p :: ps)) = true).
  { apply populated_some; [exact Hnamed|].
    apply (names_of_member (kind p) (p :: ps) p); [now left | reflexivity]. }
  destruct (kind p) eqn:Ek; [now right | | | | |];
    left; apply (populated_after_true CElement (kind p));
    rewrite Ek; simpl; try lia; exact Hp.
Qed.

Lemma continue_failures cs : forall ps,
  ps <> [] -> all_named ps -> forallb names_something cs = true ->
  (exists s, continue (Normal (Instance (left_by ps))) cs = Normal (Instance s))
  \/ continue (Normal (Instance (left_by ps))) cs = Throw OrderError
  \/ continue (Normal (Instance (left_by ps))) cs = Throw DuplicateError.
Proof.
  induction cs as [|c cs IH]; intros ps Hne Hnamed Hcs; cbn [continue].
  - left. eauto.
  - simpl in Hcs. apply andb_true_iff in Hcs as [Hc Hcs].
    destruct (call_outcomes c (left_by ps)) as [[s1 E]|[E|[E|(v & E & Ha & Hp)]]].
    + rewrite E. apply call_left_by in E. subst s1. apply IH.
      * destruct ps; [now elim Hne | discriminate].
      * apply all_named_app; [exact Hnamed | apply (parts_of_named_call c Hc)].
      * exact Hcs.
    + rewrite E, continue_throw. auto.
    + rewrite E, continue_throw. auto.
    + exfalso. destruct (named_is_populated ps Hne Hnamed) as [K|K]; congruence.
Qed.

(** X3. A chain whose calls all name something never ends in a TypeError and
    never hands back a string: either it goes through and yields an
    instance, or it throws the order error or the duplicate error. *)
Theorem chain_failures (ch : chain) :
  well_named ch = true ->
  (exists s, run ch = Normal (Instance s))
  \/ run ch = Throw OrderError
  \/ run ch = Throw DuplicateError.
Proof.
  intros Hwn. destruct (well_named_parts ch Hwn) as [Hfirst Hrest].
  unfold run. rewrite create_left_by. apply continue_failures.
  - discriminate.
  - intros p [<-|[]]. exact Hfirst.
  - exact Hrest.
Qed.

Lemma chain_failures_witness :
  well_named (mkChain (mkPart CElement "table") [Element "div"]) = true
  /\ run (mkChain (mkPart CElement "table") [Element "div"]) = Throw DuplicateError.
Proof.
  split; [reflexivity|].
  destruct (chain_failures (mkChain (mkPart CElement "table") [Element "div"]) eq_refl)
    as [[s H]|[H|H]]; [discriminate H | discriminate H | exact H].
Defined.

(** ** How the rendering grows *)

Lemma stringify_segments this :
  SimpleSelector.stringify this =
  (if truthy (el this) then text (el this) else "")
  ++ (if truthy (elId this) then "#" ++ text (elId this) else "")
  ++ (if has_length (classes this) then "." ++ String.concat "." (classes this) else "")
  ++ (if truthy (attribute this) then "[" ++ text (attribute this) ++ "]" else "")
  ++ (if has_length (pseudoClassEl this)
      then ":" ++ String.concat ":" (pseudoClassEl this) else "")
  ++ (if has_length (pseudoElementEl this)
      then "::" ++ String.concat "::" (pseudoElementEl this) else "").
Proof.
  unfold SimpleSelector.stringify, join.
  rewrite !append_if_r, !append_assoc. reflexivity.
Qed.

Lemma concat_app sep a l1 b l2 :
  String.concat sep ((a :: l1) ++ b :: l2)%list
  = String.concat sep (a :: l1) ++ sep ++ String.concat sep (b :: l2).
Proof.
  revert a. induction l1 as [|c l1 IH]; intros a.
  - simpl. reflexivity.
  - change (String.concat sep ((a :: c :: l1) ++ b :: l2)%list)
      with (a ++ sep ++ String.concat sep ((c :: l1) ++ b :: l2)%list).
    rewrite IH.
    change (String.concat sep (a :: c :: l1))
      with (a ++ sep ++ String.concat sep (c :: l1)).
    now rewrite !append_assoc.
Qed.

Lemma segment_app sep l1 l2 :
  (if has_length (l1 ++ l2)%list then sep ++ String.concat sep (l1 ++ l2)%list else "")
  = (if has_length l1 then sep ++ String.concat sep l1 else "")
    ++ match l2 with [] => "" | _ => sep ++ String.concat sep l2 end.
Proof.
  destruct l1 as [|a l1]; [destruct l2; reflexivity|].
  destruct l2 as [|b l2].
  - rewrite app_nil_r. simpl has_length. now rewrite append_nil_r.
  - simpl has_length. rewrite concat_app. now rewrite !append_assoc.
Qed.

Lemma populated_after_none k j s :
  populated_after k s = false -> rank k < rank j -> populated j s = false.
Proof.
  intros H Hlt. destruct (populated j s) eqn:E; [|reflexivity].
  now rewrite (populated_after_true k j s Hlt E) in H.
Qed.

Lemma truthy_text v : (if truthy (Some v) then v else "") = v.
Proof. destruct v; reflexivity. Qed.

(** X4. A call that returns adds its own text at the end of the rendering
    and changes nothing before it: [stringify()] after the call is
    [stringify()] before it followed by the text of the call ('#' and the
    id, '.' and the classes joined by '.', and so on).  For [attr] this
    holds when no attribute expression was stored yet. *)
Theorem call_appends_its_text (c : call) (this this' : SimpleSelector) (r : returned) :
  method_of c this = (this', Normal r) ->
  (category_of c = CAttribute -> truthy (attribute this) = false) ->
  SimpleSelector.stringify this' = SimpleSelector.stringify this ++ text_of c.
Proof.
  intros H Hattr. rewrite !stringify_segments.
  destruct c as [v|v|vs|v|vs|v]; simpl method_of in H; simpl text_of.
  - rewrite element_outcome in H.
    destruct (populated_after CElement this) eqn:Ha; [discriminate|].
    destruct (truthy (el this)) eqn:He; [discriminate|].
    injection H as <- _.
    pose proof (populated_after_none _ CId _ Ha ltac:(simpl; lia)) as H1.
    pose proof (populated_after_none _ CClass _ Ha ltac:(simpl; lia)) as H2.
    pose proof (populated_after_none _ CAttribute _ Ha ltac:(simpl; lia)) as H3.
    pose proof (populated_after_none _ CPseudoClass _ Ha ltac:(simpl; lia)) as H4.
    pose proof (populated_after_none _ CPseudoElement _ Ha ltac:(simpl; lia)) as H5.
    simpl in H1, H2, H3, H4, H5. cbn [set_el el elId classes attribute pseudoClassEl
      pseudoElementEl text].
    rewrite H1, H2, H3, H4, H5, truthy_text. now rewrite !append_nil_r.
  - rewrite id_outcome in H.
    destruct (populated_after CId this) eqn:Ha; [discriminate|].
    destruct (truthy (elId this)) eqn:He; [discriminate|].
    injection H as <- _.
    pose proof (populated_after_none _ CClass _ Ha ltac:(simpl; lia)) as H2.
    pose proof (populated_after_none _ CAttribute _ Ha ltac:(simpl; lia)) as H3.
    pose proof (populated_after_none _ CPseudoClass _ Ha ltac:(simpl; lia)) as H4.
    pose proof (populated_after_none _ CPseudoElement _ Ha ltac:(simpl; lia)) as H5.
    simpl in H2, H3, H4, H5. cbn [set_elId el elId classes attribute pseudoClassEl
      pseudoElementEl text].
    rewrite H2, H3, H4, H5. rewrite !append_nil_r.
    destruct v; simpl; now rewrite ?append_nil_r.
  - rewrite class_outcome in H.
    destruct (populated_after CClass this) eqn:Ha; [discriminate|].
    injection H as <- _.
    pose proof (populated_after_none _ CAttribute _ Ha ltac:(simpl; lia)) as H3.
    pose proof (populated_after_none _ CPseudoClass _ Ha ltac:(simpl; lia)) as H4.
    pose proof (populated_after_none _ CPseudoElement _ Ha ltac:(simpl; lia)) as H5.
    simpl in H3, H4, H5. cbn [push_classes el elId classes attribute pseudoClassEl
      pseudoElementEl].
    rewrite H3, H4, H5, segment_app. rewrite !append_nil_r.
    now rewrite !append_assoc.
  - rewrite attr_outcome in H.
    destruct (populated_after CAttribute this) eqn:Ha; [discriminate|].
    injection H as <- _.
    pose proof (populated_after_none _ CPseudoClass _ Ha ltac:(simpl; lia)) as H4.
    pose proof (populated_after_none _ CPseudoElement _ Ha ltac:(simpl; lia)) as H5.
    simpl in H4, H5. cbn [set_attribute el elId classes attribute pseudoClassEl
      pseudoElementEl text].
    rewrite H4, H5, (Hattr eq_refl). rewrite !append_nil_r.
    destruct v; simpl; now rewrite ?append_nil_r, ?append_assoc.
  - rewrite pseudoClass_outcome in H.
    destruct (populated_after CPseudoClass this) eqn:Ha; [discriminate|].
    injection H as <- _.
    pose proof (populated_after_none _ CPseudoElement _ Ha ltac:(simpl; lia)) as H5.
    simpl in H5. cbn [push_pseudoClassEl el elId classes attribute pseudoClassEl
      pseudoElementEl].
    rewrite H5, segment_app. rewrite !append_nil_r.
    now rewrite !append_assoc.
  - rewrite pseudoElement_outcome in H.
    destruct (has_length (pseudoElementEl this)) eqn:He; [discriminate|].
    injection H as <- _.
    cbn [push_pseudoElementEl el elId classes attribute pseudoClassEl pseudoElementEl].
    destruct (pseudoElementEl this); [|discriminate He]. simpl.
    now rewrite !append_nil_r, !append_assoc.
Qed.

Lemma call_appends_its_text_witness :
  method_of (Class ["container"; "editable"]) (set_elId (Some "main") new_SimpleSelector)
  = (push_classes ["container"; "editable"] (set_elId (Some "main") new_SimpleSelector),
     Normal This)
  /\ SimpleSelector.stringify
       (push_classes ["container"; "editable"] (set_elId (Some "main") new_SimpleSelector))
     = SimpleSelector.stringify (set_elId (Some "main") new_SimpleSelector)
       ++ ".container.editable".
Proof.
  split; [reflexivity|].
  refine (call_appends_its_text (Class ["container"; "editable"])
            (set_elId (Some "main") new_SimpleSelector)
            (push_classes ["container"; "editable"]
                          (set_elId (Some "main") new_SimpleSelector))
            This eq_refl _).
  discriminate.
Defined.

(** ** Several names in one call *)

(** X5. [class(x1, ..., xn, y1, ..., ym)] does what [class(x1, ..., xn)]
    followed by [class(y1, ..., ym)] on the same instance does, in the fields
    it leaves and in what it returns or throws; likewise [pseudoClass]. *)
Theorem several_names_at_once (xs ys : list string) (this : SimpleSelector) :
  SimpleSelector.class (xs ++ ys) this
  = bind (SimpleSelector.class xs) (fun _ => SimpleSelector.class ys) this
  /\ SimpleSelector.pseudoClass (xs ++ ys) this
     = bind (SimpleSelector.pseudoClass xs) (fun _ => SimpleSelector.pseudoClass ys) this.
Proof.
  split.
  - unfold bind. rewrite !class_outcome.
    destruct (populated_after CClass this) eqn:Ha; [reflexivity|].
    rewrite class_outcome.
    change (populated_after CClass (push_classes xs this))
      with (populated_after CClass this).
    rewrite Ha. unfold push_classes; simpl. now rewrite app_assoc.
  - unfold bind. rewrite !pseudoClass_outcome.
    destruct (populated_after CPseudoClass this) eqn:Ha; [reflexivity|].
    rewrite pseudoClass_outcome.
    change (populated_after CPseudoClass (push_pseudoClassEl xs this))
      with (populated_after CPseudoClass this).
    rewrite Ha. unfold push_pseudoClassEl; simpl. now rewrite app_assoc.
Qed.

(** ** What no call ever does *)

(** X6. No call, whether it returns or throws, changes an element name or
    an id that is a non-empty string, or a pseudo-element that is there. *)
Theorem set_once (c : call) (this : SimpleSelector) :
  (truthy (el this) = true -> el (fst (method_of c this)) = el this)
  /\ (truthy (elId this) = true -> elId (fst (method_of c this)) = elId this)
  /\ (has_length (pseudoElementEl this) = true ->
      pseudoElementEl (fst (method_of c this)) = pseudoElementEl this).
Proof.
  destruct c as [v|v|vs|v|vs|v]; simpl method_of;
    [ rewrite element_outcome | rewrite id_outcome | rewrite class_outcome
    | rewrite attr_outcome | rewrite pseudoClass_outcome
    | rewrite pseudoElement_outcome ];
    repeat match goal with
           | |- context [if ?b then _ else _] => destruct b eqn:?
           end; simpl; repeat split; intros; try reflexivity; congruence.
Qed.

Lemma reachable_call_pseudoElement c this :
  length (pseudoElementEl this) <= 1 ->
  length (pseudoElementEl (fst (method_of c this))) <= 1.
Proof.
  intros H. destruct c as [v|v|vs|v|vs|v]; simpl method_of;
    [ rewrite element_outcome | rewrite id_outcome | rewrite class_outcome
    | rewrite attr_outcome | rewrite pseudoClass_outcome
    | rewrite pseudoElement_outcome ];
    repeat match goal with
           | |- context [if ?b then _ else _] => destruct b eqn:?
           end; simpl; try exact H.
  destruct (pseudoElementEl this); [simpl; lia | discriminate].
Qed.

(** X7. However an instance was obtained and whatever calls were made on
    it, failed ones included, it holds at most one pseudo-element. *)
Theorem at_most_one_pseudoElement (this : SimpleSelector) :
  reachable this -> length (pseudoElementEl this) <= 1.
Proof.
  induction 1 as [|value|c this Hr IH]; simpl; try lia.
  now apply reachable_call_pseudoElement.
Qed.

Lemma at_most_one_pseudoElement_witness :
  length (pseudoElementEl
            (fst (method_of (PseudoElement "after")
                    (fst (method_of (PseudoElement "before") new_SimpleSelector))))) <= 1.
Proof.
  exact (at_most_one_pseudoElement _
           (reach_call (PseudoElement "after") _
              (reach_call (PseudoElement "before") _ reach_new))).
Defined.

(** ** Combined selectors, however they are nested *)

(** X8. The rendering of combined selectors does not show how they were
    nested: combining [a] and [b] first and then [d], or [a] with the
    combination of [b] and [d], gives the same string. *)
Theorem combine_is_associative (a b d : selector) (c1 c2 : string) :
  stringify (cssSelectorBuilder.combine (cssSelectorBuilder.combine a c1 b) c2 d)
  = stringify (cssSelectorBuilder.combine a c1 (cssSelectorBuilder.combine b c2 d)).
Proof.
  unfold cssSelectorBuilder.combine. cbn [stringify].
  now rewrite !append_assoc.
Qed.

(** ** When element() is accepted *)

Lemma append_empty a b : a ++ b = "" -> a = "" /\ b = "".
Proof. destruct a; simpl; [auto | discriminate]. Qed.

Lemma stringify_empty this :
  SimpleSelector.stringify this = "" <->
  (forall k, populated k this = false).
Proof.
  rewrite stringify_segments. split.
  - intros H.
    apply append_empty in H as [H0 H]. apply append_empty in H as [H1 H].
    apply append_empty in H as [H2 H]. apply append_empty in H as [H3 H].
    apply append_empty in H as [H4 H5].
    intros k. destruct k; simpl.
    + destruct (el this) as [[|a s]|]; simpl in *; [reflexivity | discriminate | reflexivity].
    + destruct (truthy (elId this)); [discriminate | reflexivity].
    + destruct (has_length (classes this)); [discriminate | reflexivity].
    + destruct (truthy (attribute this)); [discriminate | reflexivity].
    + destruct (has_length (pseudoClassEl this)); [discriminate | reflexivity].
    + destruct (has_length (pseudoElementEl this)); [discriminate | reflexivity].
  - intros H.
    pose proof (H CElement) as H0. pose proof (H CId) as H1.
    pose proof (H CClass) as H2. pose proof (H CAttribute) as H3.
    pose proof (H CPseudoClass) as H4. pose proof (H CPseudoElement) as H5.
    simpl in *. now rewrite H0, H1, H2, H3, H4, H5.
Qed.

(** X9. [element(v)] returns exactly on an instance that still renders as
    the empty string; on any other it throws. *)
Theorem element_only_first (v : string) (this : SimpleSelector) :
  snd (SimpleSelector.element v this) = Normal (Str v)
  <-> SimpleSelector.stringify this = "".
Proof.
  rewrite stringify_empty, element_outcome. split.
  - destruct (populated_after CElement this) eqn:Ha; [discriminate|].
    destruct (truthy (el this)) eqn:He; [discriminate|]. intros _ k.
    destruct k; [exact He | | | | |];
      apply (populated_after_none CElement _ _ Ha); simpl; lia.
  - intros H. rewrite (populated_after_false CElement this (fun j _ => H j)).
    pose proof (H CElement) as He. simpl in He. now rewrite He.
Qed.

(** * Further properties of fromJSON *)

Module JSONPlain.
Import JSON.

Lemma forallb_rev {A : Type} (f : A -> bool) l :
  forallb f l = true -> forallb f (rev l) = true.
Proof.
  rewrite !forallb_forall. intros H x Hx. apply H. now apply in_rev.
Qed.

Lemma set_property_plain key v props :
  plain v = true ->
  forallb plain_property props = true ->
  forallb plain_property (set_property key v props) = true.
Proof.
  intros Hv. induction props as [|[k old] props IH]; simpl; intros H.
  - now rewrite Hv.
  - apply andb_true_iff in H as [Hold Hrest].
    destruct (list_eq_dec N.eq_dec k key); simpl.
    + now rewrite Hv, Hrest.
    + now rewrite Hold, IH.
Qed.

Lemma parsers_plain fuel :
  (forall t v r, value fuel t = Parsed v r -> plain v = true)
  /\ (forall t acc v r,
        elements fuel t acc = Parsed v r ->
        forallb plain acc = true -> plain v = true)
  /\ (forall t props v r,
        members fuel t props = Parsed v r ->
        forallb plain_property props = true -> plain v = true).
Proof.
  induction fuel as [|f (IHv & IHe & IHm)];
    [repeat split; intros; discriminate|].
  repeat split.
  - intros t v r H. cbn [value] in H.
    repeat (JSONFacts.destruct_match_in H; try discriminate H);
      try (injection H as <- _; reflexivity).
    + now apply (IHe _ _ _ _ H).
    + now apply (IHm _ _ _ _ H).
  - intros t acc v r H Hacc. cbn [elements] in H.
    destruct (value f t) as [v0 r0| |] eqn:Ev; try discriminate H.
    apply IHv in Ev.
    repeat (JSONFacts.destruct_match_in H; try discriminate H).
    + apply (IHe _ _ _ _ H). simpl. now rewrite Ev, Hacc.
    + injection H as <- _.
      change (forallb plain (rev (v0 :: acc)) = true).
      apply forallb_rev. simpl. now rewrite Ev, Hacc.
  - intros t props v r H Hprops. cbn [members] in H.
    repeat (JSONFacts.destruct_match_in H; try discriminate H);
      repeat match goal with
             | E : value f _ = Parsed _ _ |- _ => apply IHv in E
             end.
    + apply (IHm _ _ _ _ H). now apply set_property_plain.
    + injection H as <- _.
      match goal with
      | |- plain (JSObject Object_prototype ?ps) = true =>
          change (forallb plain_property ps = true)
      end.
      now apply set_property_plain.
Qed.

Lemma parse_plain json v : parse json = Normal v -> plain v = true.
Proof.
  unfold parse, parse_units. intros H.
  destruct (value (enough (units json)) (units json)) as [v0 r| |] eqn:E;
    try discriminate H.
  destruct (skip_ws r); [|discriminate H].
  injection H as <-. exact (proj1 (parsers_plain _) _ _ _ E).
Qed.

End JSONPlain.

(** X10. [fromJSON] tags the top-level value only: every property value and
    every array element of what it returns, at any depth, still has the
    prototype [JSON.parse] gave it. *)
Theorem fromJSON_tags_the_top_only (proto : prototype) (json : string) (res : JSValue) :
  fromJSON proto json = Normal res ->
  forallb plain (contents res) = true.
Proof.
  unfold fromJSON. destruct (JSON.parse json) as [v|e] eqn:E; [|discriminate].
  apply JSONPlain.parse_plain in E.
  destruct v as [|b|n|s|p elements|p properties];
    simpl; intros H; try discriminate H; injection H as <-; try reflexivity.
  - destruct p; simpl in *; try discriminate E. exact E.
  - destruct p; simpl in *; try discriminate E.
    rewrite forallb_forall in E. apply forallb_forall. intros x Hx.
    apply in_map_iff in Hx as ([k y] & <- & Hy). exact (E _ Hy).
Qed.

Lemma fromJSON_tags_the_top_only_witness :
  fromJSON (Reference "Circle.prototype") "[{}, [1]]"
  = Normal (JSArray (Reference "Circle.prototype")
              [JSObject Object_prototype []; JSArray Array_prototype [JSNumber 1]])
  /\ forallb plain [JSObject Object_prototype []; JSArray Array_prototype [JSNumber 1]]
     = true.
Proof.
  split; [vm_compute; reflexivity|].
  refine (fromJSON_tags_the_top_only (Reference "Circle.prototype") "[{}, [1]]"
            (JSArray (Reference "Circle.prototype")
               [JSObject Object_prototype []; JSArray Array_prototype [JSNumber 1]]) _).
  vm_compute; reflexivity.
Defined.

(** * A further property of Rectangle *)

Lemma SFmul_comm x y : SFmul prec emax x y = SFmul prec emax y x.
Proof.
  destruct x as [sx|sx| |sx mx ex], y as [sy|sy| |sy my ey]; simpl;
    try reflexivity; try (now rewrite xorb_comm).
  now rewrite xorb_comm, Pos.mul_comm, Z.add_comm.
Qed.

(** X11. The area does not depend on which side is given as the width:
    [new Rectangle(w, h).getArea()] is [new Rectangle(h, w).getArea()] for
    all numbers, NaN and the infinities included. *)
Theorem area_is_symmetric (w h : float) :
  getArea (Rectangle w h) = getArea (Rectangle h w).
Proof.
  unfold getArea, Rectangle; simpl.
  apply Prim2SF_inj. rewrite !mul_spec. apply SFmul_comm.
Qed.
